(** * wt: the worktree catalog, its reconciler and the interactive selector

    A shallow embedding of the Go sources of [wt] (packages [db], [git],
    [ui] and [cmd]) together with the properties the design document states
    about them.

    Conventions.
    - Go [int]/[int64] values are [Z]; Go strings are [string] (byte
      sequences); a nullable [*time.Time] is an [option Z].
    - A Go function returning [(T, error)] returns [result T]; one returning
      only [error] returns [result unit].  An [error] is its message text.
    - The SQLite tables are lists of rows in rowid order.
    - Everything outside the process (git, the filesystem, the clock) is the
      abstract [World] of the [System] interface; terminal input is an
      explicit stream in the program state. *)

From Stdlib Require Import ZArith String Ascii List Bool Lia.
From stdpp Require Import base list strings gmap.

Local Open Scope Z_scope.

(** ** Errors and results *)

Definition error := string.

Inductive result (A : Type) : Type :=
| Ok (a : A)
| Err (e : error).
Arguments Ok {A} a.
Arguments Err {A} e.

Definition is_ok {A} (r : result A) : bool :=
  match r with Ok _ => true | Err _ => false end.

(** [fmt.Errorf(prefix + "%w" + suffix, err)] *)
Definition Errorf (prefix : string) (e : error) (suffix : string) : error :=
  prefix +:+ e +:+ suffix.

(** Go slice indexing [l[i]]; [None] is the run-time panic "index out of
    range". *)
Definition index {A} (l : list A) (i : Z) : option A :=
  if i <? 0 then None else l !! Z.to_nat i.

(** Go [len] *)
Definition len {A} (l : list A) : Z := Z.of_nat (length l).

(** ** SQL helpers *)

(** [ORDER BY]: a stable insertion sort on a boolean "comes no later than"
    test.  SQL leaves the order of ties open; rowid order is kept here. *)
Fixpoint insert_sorted {A} (le : A -> A -> bool) (x : A) (l : list A) : list A :=
  match l with
  | [] => [x]
  | y :: l' => if le x y then x :: y :: l' else y :: insert_sorted le x l'
  end.

Definition order_by {A} (le : A -> A -> bool) (l : list A) : list A :=
  foldr (insert_sorted le) [] l.

(** Lexicographic combination of sort keys, as comparisons. *)
Definition then_by (c1 c2 : comparison) : comparison :=
  match c1 with Eq => c2 | _ => c1 end.

Definition no_later (c : comparison) : bool :=
  match c with Gt => false | _ => true end.

(** [is_main DESC]: true sorts before false. *)
Definition compare_desc_bool (a b : bool) : comparison :=
  match a, b with
  | true, false => Lt
  | false, true => Gt
  | _, _ => Eq
  end.

(** ** Package db: the persisted catalog *)

Module db.

(** [type Repo struct]; also the shape of a row of table [repos]. *)
Record Repo := mkRepo {
  repo_ID : Z;
  repo_Path : string;
  repo_Name : string;
  repo_WorktreesDir : string;
  repo_LastSyncedAt : option Z;
  repo_CreatedAt : Z;
  repo_DeletedAt : option Z
}.

(** A row of table [worktrees] (001_initial.up.sql). *)
Record WorktreeRow := mkRow {
  row_id : Z;
  row_repo_id : Z;
  row_path : string;
  row_branch : string;
  row_is_main : bool;
  row_created_at : Z;
  row_deleted_at : option Z
}.

(** [type Worktree struct]: a row plus the joined repository fields. *)
Record Worktree := mkWorktree {
  wt_ID : Z;
  wt_RepoID : Z;
  wt_Path : string;
  wt_Branch : string;
  wt_IsMain : bool;
  wt_CreatedAt : Z;
  wt_DeletedAt : option Z;
  wt_RepoName : string;
  wt_RepoPath : string
}.

(** The database behind [*sql.DB]: the two tables. *)
Record DB := mkDB {
  repos : list Repo;
  worktrees : list WorktreeRow
}.

(** SQLite's rowid for an inserted row of an [INTEGER PRIMARY KEY] table:
    one more than the largest in use. *)
Definition next_rowid (ids : list Z) : Z := 1 + foldr Z.max 0 ids.

(** *** repo.go *)

(** [ON CONFLICT(path) DO UPDATE SET name, worktrees_dir, last_synced_at
    = excluded..., deleted_at = NULL] *)
Definition repo_conflict_update (repo old : Repo) : Repo :=
  {| repo_ID := repo_ID old;
     repo_Path := repo_Path old;
     repo_Name := repo_Name repo;
     repo_WorktreesDir := repo_WorktreesDir repo;
     repo_LastSyncedAt := repo_LastSyncedAt repo;
     repo_CreatedAt := repo_CreatedAt old;
     repo_DeletedAt := None |}.

(** [UpsertRepo]: the returned struct carries the scanned [id] and
    [created_at]. *)
Definition UpsertRepo (now : Z) (d : DB) (repo : Repo) : result (DB * Repo) :=
  match find (fun r => bool_decide (repo_Path r = repo_Path repo)) (repos d) with
  | Some old =>
      Ok ({| repos := map (fun r => if decide (repo_Path r = repo_Path repo)
                                   then repo_conflict_update repo r else r) (repos d);
             worktrees := worktrees d |},
          {| repo_ID := repo_ID old;
             repo_Path := repo_Path repo;
             repo_Name := repo_Name repo;
             repo_WorktreesDir := repo_WorktreesDir repo;
             repo_LastSyncedAt := repo_LastSyncedAt repo;
             repo_CreatedAt := repo_CreatedAt old;
             repo_DeletedAt := repo_DeletedAt repo |})
  | None =>
      let new :=
        {| repo_ID := next_rowid (map repo_ID (repos d));
           repo_Path := repo_Path repo;
           repo_Name := repo_Name repo;
           repo_WorktreesDir := repo_WorktreesDir repo;
           repo_LastSyncedAt := repo_LastSyncedAt repo;
           repo_CreatedAt := now;
           repo_DeletedAt := None |} in
      Ok ({| repos := repos d ++ [new]; worktrees := worktrees d |},
          {| repo_ID := repo_ID new;
             repo_Path := repo_Path repo;
             repo_Name := repo_Name repo;
             repo_WorktreesDir := repo_WorktreesDir repo;
             repo_LastSyncedAt := repo_LastSyncedAt repo;
             repo_CreatedAt := now;
             repo_DeletedAt := repo_DeletedAt repo |})
  end.

(** [GetRepoByPath]: [Ok None] is Go's [(nil, nil)]. *)
Definition GetRepoByPath (d : DB) (path : string) : result (option Repo) :=
  Ok (find (fun r => bool_decide (repo_Path r = path)
                     && bool_decide (repo_DeletedAt r = None)) (repos d)).

Definition GetRepoByID (d : DB) (id : Z) : result (option Repo) :=
  Ok (find (fun r => bool_decide (repo_ID r = id)
                     && bool_decide (repo_DeletedAt r = None)) (repos d)).

(** [ListRepos]: [WHERE deleted_at IS NULL ORDER BY name] *)
Definition ListRepos (d : DB) : result (list Repo) :=
  Ok (order_by (fun a b => String.leb (repo_Name a) (repo_Name b))
        (filter (fun r => repo_DeletedAt r = None) (repos d))).

Definition SoftDeleteRepo (now : Z) (d : DB) (id : Z) : result DB :=
  Ok {| repos := map (fun r => if decide (repo_ID r = id)
                               then {| repo_ID := repo_ID r;
                                       repo_Path := repo_Path r;
                                       repo_Name := repo_Name r;
                                       repo_WorktreesDir := repo_WorktreesDir r;
                                       repo_LastSyncedAt := repo_LastSyncedAt r;
                                       repo_CreatedAt := repo_CreatedAt r;
                                       repo_DeletedAt := Some now |}
                               else r) (repos d);
        worktrees := worktrees d |}.

Definition UpdateLastSynced (now : Z) (d : DB) (id : Z) : result DB :=
  Ok {| repos := map (fun r => if decide (repo_ID r = id)
                               then {| repo_ID := repo_ID r;
                                       repo_Path := repo_Path r;
                                       repo_Name := repo_Name r;
                                       repo_WorktreesDir := repo_WorktreesDir r;
                                       repo_LastSyncedAt := Some now;
                                       repo_CreatedAt := repo_CreatedAt r;
                                       repo_DeletedAt := repo_DeletedAt r |}
                               else r) (repos d);
        worktrees := worktrees d |}.

(** *** worktree.go *)

(** [ON CONFLICT(path) DO UPDATE SET repo_id, branch, is_main =
    excluded..., deleted_at = NULL] *)
Definition conflict_update (wt : Worktree) (old : WorktreeRow) : WorktreeRow :=
  {| row_id := row_id old;
     row_repo_id := wt_RepoID wt;
     row_path := row_path old;
     row_branch := wt_Branch wt;
     row_is_main := wt_IsMain wt;
     row_created_at := row_created_at old;
     row_deleted_at := None |}.

(** [SET deleted_at = CURRENT_TIMESTAMP] *)
Definition tombstone (now : Z) (r : WorktreeRow) : WorktreeRow :=
  {| row_id := row_id r;
     row_repo_id := row_repo_id r;
     row_path := row_path r;
     row_branch := row_branch r;
     row_is_main := row_is_main r;
     row_created_at := row_created_at r;
     row_deleted_at := Some now |}.

(** [wt.ID], [wt.CreatedAt] as scanned from [RETURNING id, created_at]. *)
Definition scanned (wt : Worktree) (id created : Z) : Worktree :=
  {| wt_ID := id;
     wt_RepoID := wt_RepoID wt;
     wt_Path := wt_Path wt;
     wt_Branch := wt_Branch wt;
     wt_IsMain := wt_IsMain wt;
     wt_CreatedAt := created;
     wt_DeletedAt := wt_DeletedAt wt;
     wt_RepoName := wt_RepoName wt;
     wt_RepoPath := wt_RepoPath wt |}.

(** The row an [INSERT] without conflict adds. *)
Definition inserted (now : Z) (rows : list WorktreeRow) (wt : Worktree) : WorktreeRow :=
  {| row_id := next_rowid (map row_id rows);
     row_repo_id := wt_RepoID wt;
     row_path := wt_Path wt;
     row_branch := wt_Branch wt;
     row_is_main := wt_IsMain wt;
     row_created_at := now;
     row_deleted_at := None |}.

(** The [DO UPDATE] on the row in conflict, other rows untouched. *)
Definition on_conflict (wt : Worktree) (r : WorktreeRow) : WorktreeRow :=
  if decide (row_path r = wt_Path wt) then conflict_update wt r else r.

(** [UpsertWorktree].  The connection is opened with [_foreign_keys=on]
    (db.go), so a [repo_id] naming no row of [repos] fails the statement
    and leaves the table as it was. *)
Definition UpsertWorktree (now : Z) (d : DB) (wt : Worktree) : result (DB * Worktree) :=
  if decide (wt_RepoID wt ∈ map repo_ID (repos d)) then
    match find (fun r => bool_decide (row_path r = wt_Path wt)) (worktrees d) with
    | Some old =>
        Ok ({| repos := repos d; worktrees := map (on_conflict wt) (worktrees d) |},
            scanned wt (row_id old) (row_created_at old))
    | None =>
        let new := inserted now (worktrees d) wt in
        Ok ({| repos := repos d; worktrees := worktrees d ++ [new] |},
            scanned wt (row_id new) now)
    end
  else Err "FOREIGN KEY constraint failed".

(** [FROM worktrees w JOIN repos r ON w.repo_id = r.id] for one row. *)
Definition join_repo (d : DB) (w : WorktreeRow) : option (WorktreeRow * Repo) :=
  r ← find (fun r => bool_decide (repo_ID r = row_repo_id w)) (repos d);
  Some (w, r).

Definition scan_worktree (wr : WorktreeRow * Repo) : Worktree :=
  {| wt_ID := row_id wr.1;
     wt_RepoID := row_repo_id wr.1;
     wt_Path := row_path wr.1;
     wt_Branch := row_branch wr.1;
     wt_IsMain := row_is_main wr.1;
     wt_CreatedAt := row_created_at wr.1;
     wt_DeletedAt := row_deleted_at wr.1;
     wt_RepoName := repo_Name wr.2;
     wt_RepoPath := repo_Path wr.2 |}.

Definition joined (d : DB) : list (WorktreeRow * Repo) :=
  omap (join_repo d) (worktrees d).

(** [GetWorktreeByPath]: [WHERE w.path = ? AND w.deleted_at IS NULL] *)
Definition GetWorktreeByPath (d : DB) (path : string) : result (option Worktree) :=
  Ok (scan_worktree <$>
      find (fun wr => bool_decide (row_path wr.1 = path)
                      && bool_decide (row_deleted_at wr.1 = None)) (joined d)).

(** [ORDER BY w.is_main DESC, w.branch] *)
Definition by_main_branch (a b : WorktreeRow * Repo) : comparison :=
  then_by (compare_desc_bool (row_is_main a.1) (row_is_main b.1))
          (String.compare (row_branch a.1) (row_branch b.1)).

(** [ORDER BY r.name, w.is_main DESC, w.branch] *)
Definition by_name_main_branch (a b : WorktreeRow * Repo) : comparison :=
  then_by (String.compare (repo_Name a.2) (repo_Name b.2)) (by_main_branch a b).

(** [CASE WHEN r.path = ? THEN 0 ELSE 1 END] *)
Definition repo_first_key (currentRepoPath : string) (wr : WorktreeRow * Repo) : Z :=
  if decide (repo_Path wr.2 = currentRepoPath) then 0 else 1.

Definition ListWorktreesByRepo (d : DB) (repoID : Z) : result (list Worktree) :=
  Ok (scan_worktree <$>
      order_by (fun a b => no_later (by_main_branch a b))
        (filter (fun wr => row_repo_id wr.1 = repoID /\ row_deleted_at wr.1 = None)
                (joined d))).

Definition ListAllWorktrees (d : DB) : result (list Worktree) :=
  Ok (scan_worktree <$>
      order_by (fun a b => no_later (by_name_main_branch a b))
        (filter (fun wr => row_deleted_at wr.1 = None /\ repo_DeletedAt wr.2 = None)
                (joined d))).

Definition ListAllWorktreesWithRepoFirst (d : DB) (currentRepoPath : string)
  : result (list Worktree) :=
  Ok (scan_worktree <$>
      order_by (fun a b =>
                  no_later (then_by (repo_first_key currentRepoPath a
                                       ?= repo_first_key currentRepoPath b)
                                    (by_name_main_branch a b)))
        (filter (fun wr => row_deleted_at wr.1 = None /\ repo_DeletedAt wr.2 = None)
                (joined d))).

(** [SoftDeleteWorktree]: [UPDATE ... WHERE id = ?] *)
Definition SoftDeleteWorktree (now : Z) (d : DB) (id : Z) : result DB :=
  Ok {| repos := repos d;
        worktrees := map (fun r => if decide (row_id r = id) then tombstone now r else r)
                         (worktrees d) |}.

(** [SoftDeleteWorktreeByPath]: [UPDATE ... WHERE path = ?] *)
Definition SoftDeleteWorktreeByPath (now : Z) (d : DB) (path : string) : result DB :=
  Ok {| repos := repos d;
        worktrees := map (fun r => if decide (row_path r = path) then tombstone now r else r)
                         (worktrees d) |}.

(** [SoftDeleteMissingWorktrees]: the two statements of the source, the
    first for an empty [existingPaths], the second with
    [path NOT IN (?, ...)]. *)
Definition SoftDeleteMissingWorktrees (now : Z) (d : DB) (repoID : Z)
    (existingPaths : list string) : result DB :=
  if decide (len existingPaths = 0) then
    Ok {| repos := repos d;
          worktrees :=
            map (fun r => if decide (row_repo_id r = repoID /\ row_deleted_at r = None)
                          then tombstone now r else r)
                (worktrees d) |}
  else
    Ok {| repos := repos d;
          worktrees :=
            map (fun r => if decide (row_repo_id r = repoID /\ row_deleted_at r = None
                                     /\ row_path r ∉ existingPaths)
                          then tombstone now r else r)
                (worktrees d) |}.

End db.

(** ** Go standard library: strings and path/filepath (Unix)

    These are not part of wt; they follow the documented behaviour of the
    standard library, byte by byte. *)

Module strings.

(** Scan left to right; [skip] bytes of a match just replaced are still to
    be passed over. *)
Fixpoint replace_from (skip : nat) (s old new : string) : string :=
  match s with
  | EmptyString => EmptyString
  | String c s' =>
      match skip with
      | S k => replace_from k s' old new
      | O =>
          if String.prefix old s
          then new +:+ replace_from (pred (String.length old)) s' old new
          else String c (replace_from 0 s' old new)
      end
  end.

(** [strings.ReplaceAll(s, old, new)] for a non-empty [old] (the only use
    in wt): non-overlapping occurrences, leftmost first. *)
Definition ReplaceAll (s old new : string) : string := replace_from 0 s old new.

(** [strings.Split(s, "/")] *)
Fixpoint split_slash (s : string) : list string :=
  match s with
  | EmptyString => [EmptyString]
  | String c s' =>
      if decide (c = "/"%char) then EmptyString :: split_slash s'
      else match split_slash s' with
           | x :: xs => String c x :: xs
           | [] => [String c EmptyString]
           end
  end.

(** [strings.Join(elems, sep)] *)
Fixpoint Join (elems : list string) (sep : string) : string :=
  match elems with
  | [] => ""
  | [e] => e
  | e :: rest => e +:+ sep +:+ Join rest sep
  end.

End strings.

Module filepath.

(** One path element pushed on the cleaned prefix [stack] (innermost
    first): empty and "." elements vanish, ".." removes the element before
    it, unless there is none to remove. *)
Definition clean_element (rooted : bool) (stack : list string) (elem : string)
  : list string :=
  if decide (elem = "" \/ elem = ".") then stack
  else if decide (elem = "..") then
    match stack with
    | top :: rest => if decide (top = "..") then elem :: stack else rest
    | [] => if rooted then [] else [elem]
    end
  else elem :: stack.

(** The path a stack of elements stands for; the empty relative path is
    ".". *)
Definition render (rooted : bool) (stack : list string) : string :=
  let body := strings.Join (rev stack) "/" in
  if rooted then "/" +:+ body
  else if decide (body = "") then "." else body.

(** [filepath.Clean] *)
Definition Clean (path : string) : string :=
  let rooted := String.prefix "/" path in
  render rooted (foldl (clean_element rooted) [] (strings.split_slash path)).

(** [filepath.Join]: empty elements are ignored, the rest is joined with
    the separator and cleaned. *)
Fixpoint Join (elem : list string) : string :=
  match elem with
  | [] => ""
  | e :: rest => if decide (e = "") then Join rest else Clean (strings.Join elem "/")
  end.

Fixpoint drop_trailing_empty (l : list string) : list string :=
  match l with
  | [] => []
  | x :: l' =>
      match drop_trailing_empty l' with
      | [] => if decide (x = "") then [] else [x]
      | r => x :: r
      end
  end.

(** [filepath.Base]: the last element, trailing separators removed. *)
Definition Base (path : string) : string :=
  if decide (path = "") then "."
  else match last (drop_trailing_empty (strings.split_slash path)) with
       | None => "/"
       | Some e => e
       end.

(** [path[:i+1]] for the last separator at [i]; empty without one. *)
Fixpoint upto_last_slash (s : string) : string :=
  match s with
  | EmptyString => EmptyString
  | String c s' =>
      let r := upto_last_slash s' in
      if decide (c = "/"%char \/ r <> "") then String c r else EmptyString
  end.

(** [filepath.Dir] *)
Definition Dir (path : string) : string := Clean (upto_last_slash path).

End filepath.

(** ** Package git *)

Module git.

(** [type WorktreeInfo struct] *)
Record WorktreeInfo := mkInfo {
  gwt_Path : string;
  gwt_Branch : string;
  gwt_IsMain : bool
}.

(** [GetRepoName] *)
Definition GetRepoName (repoPath : string) : string := filepath.Base repoPath.

(** [GetDefaultWorktreesDir]: [../{repo-name}.worktrees/] *)
Definition GetDefaultWorktreesDir (repoPath : string) : string :=
  let name := GetRepoName repoPath in
  let parent := filepath.Dir repoPath in
  filepath.Join [parent; name +:+ ".worktrees"].

End git.

(** ** The outside world

    The subprocess wrappers of package [git] and the [os] calls, by their
    output contracts.  Calls that only read return a result; calls that
    mutate also return the world they leave behind. *)
Class System := {
  World : Type;
  git_IsInsideRepo : World -> string -> bool;
  git_GetMainRepoPath : World -> string -> result string;
  git_ListWorktrees : World -> string -> result (list git.WorktreeInfo);
  git_AddWorktree : World -> string -> string -> string -> World * result unit;
  git_RemoveWorktree : World -> string -> string -> World * result unit;
  git_RemoveWorktreeForce : World -> string -> string -> World * result unit;
  os_Getwd : World -> result string;
  os_Stat : World -> string -> result unit;
  os_MkdirAll : World -> string -> World * result unit;
  (** [term.MakeRaw] on standard input *)
  term_MakeRaw : World -> result unit;
  (** SQLite's [CURRENT_TIMESTAMP] *)
  current_timestamp : World -> Z
}.

(** ** Terminal toolkit types (bubbletea, bubbles/textinput, sahilm/fuzzy)

    Third-party libraries, taken by their interfaces. *)

Module tea.

(** [tea.KeyType], as far as the models distinguish keys. *)
Inductive KeyType :=
| KeyCtrlC | KeyEsc | KeyTab | KeyCtrlD | KeyEnter
| KeyUp | KeyCtrlP | KeyDown | KeyCtrlN
| KeyBackspace
| KeyRunes (runes : string)
| KeyOther (code : Z).

(** [tea.Msg] *)
Inductive Msg :=
| WindowSizeMsg (Width Height : Z)
| KeyMsg (Type_ : KeyType)
| OtherMsg (tag : Z).

(** [tea.Cmd]: [nil], [tea.Quit], or a command of the text input. *)
Inductive Cmd := CmdNil | Quit | CmdInput.

End tea.

Module fuzzy.

(** [fuzzy.Match] *)
Record Match := mkMatch {
  Str : string;
  Index : Z;
  MatchedIndexes : list Z;
  Score : Z
}.

End fuzzy.

(** The text input widget and the fuzzy matcher. *)
Class Widgets := {
  textinput_Model : Type;
  (** [textinput.New()] with the prompt set and focus taken *)
  textinput_New : textinput_Model;
  textinput_Value : textinput_Model -> string;
  textinput_Update : textinput_Model -> tea.Msg -> textinput_Model;
  (** [fuzzy.Find(pattern, data)], best match first *)
  fuzzy_Find : string -> list string -> list fuzzy.Match
}.

(** ** Program state and the command monad *)

Inductive Output :=
| Stdout (text : string)
| Stderr (text : string)
(** [fmt.Printf("cd %q\n", path)] *)
| StdoutCd (path : string).

Record State `{System} := mkState {
  st_db : db.DB;
  st_world : World;
  (** messages the terminal will deliver to a running [tea.Program] *)
  st_keys : list tea.Msg;
  (** bytes waiting on standard input for a raw read *)
  st_stdin : list ascii;
  (** what has been printed, oldest first *)
  st_out : list Output
}.

Definition M `{System} (A : Type) : Type := State -> A * State.

Definition ret `{System} {A} (a : A) : M A := fun s => (a, s).

Definition bind `{System} {A B} (m : M A) (k : A -> M B) : M B :=
  fun s => let '(a, s') := m s in k a s'.

Declare Scope cmd_scope.
Delimit Scope cmd_scope with cmd.

Notation "x <- m ;; k" := (bind m (fun x => k))
  (at level 100, m at next level, right associativity) : cmd_scope.
Notation "m ;; k" := (bind m (fun _ => k))
  (at level 100, right associativity) : cmd_scope.

(** Go's [if err != nil { return err }] *)
Notation "x <-? m ;; k" :=
  (bind m (fun r => match r with Ok x => k | Err e => ret (Err e) end))
  (at level 100, m at next level, right associativity) : cmd_scope.

(** Go's [if err != nil { return fmt.Errorf(prefix + "%w", err) }] *)
Definition wrap `{System} {A} (prefix : string) (m : M (result A)) : M (result A) :=
  bind m (fun r => match r with
                   | Ok a => ret (Ok a)
                   | Err e => ret (Err (Errorf prefix e ""))
                   end).

Section StateAccess.
Context `{System}.

Definition get_db : M db.DB := fun s => (st_db s, s).
Definition get_world : M World := fun s => (st_world s, s).
Definition now : M Z := fun s => (current_timestamp (st_world s), s).

Definition put_db (d : db.DB) : M unit :=
  fun s => (tt, {| st_db := d; st_world := st_world s; st_keys := st_keys s;
                   st_stdin := st_stdin s; st_out := st_out s |}).

Definition put_world (w : World) : M unit :=
  fun s => (tt, {| st_db := st_db s; st_world := w; st_keys := st_keys s;
                   st_stdin := st_stdin s; st_out := st_out s |}).

Definition put_keys (k : list tea.Msg) : M unit :=
  fun s => (tt, {| st_db := st_db s; st_world := st_world s; st_keys := k;
                   st_stdin := st_stdin s; st_out := st_out s |}).

Definition put_stdin (b : list ascii) : M unit :=
  fun s => (tt, {| st_db := st_db s; st_world := st_world s; st_keys := st_keys s;
                   st_stdin := b; st_out := st_out s |}).

Definition print (o : Output) : M unit :=
  fun s => (tt, {| st_db := st_db s; st_world := st_world s; st_keys := st_keys s;
                   st_stdin := st_stdin s; st_out := st_out s ++ [o] |}).

(** A database statement that changes the tables: on success the new
    tables are stored. *)
Definition exec_db (stmt : Z -> db.DB -> result db.DB) : M (result unit) :=
  (t <- now ;;
   d <- get_db ;;
   match stmt t d with
   | Ok d' => (put_db d' ;; ret (Ok tt))
   | Err e => ret (Err e)
   end)%cmd.

(** A call that mutates the world. *)
Definition call_world (f : World -> World * result unit) : M (result unit) :=
  (w <- get_world ;;
   let '(w', r) := f w in
   put_world w' ;; ret r)%cmd.

End StateAccess.

Definition nl : string := String "010"%char EmptyString.

(** ** Package ui: the selector (picker.go) *)

Module ui.

(** [type PickerAction int] *)
Inductive PickerAction :=
| ActionNone
| ActionSwitch
| ActionAdd
| ActionBack
| ActionDelete.

#[global] Instance PickerAction_eq_dec : EqDecision PickerAction.
Proof. solve_decision. Defined.

(** [type PickerResult struct]; a nil [*db.Worktree] is [None]. *)
Record PickerResult := mkResult {
  Action : PickerAction;
  Worktree : option db.Worktree
}.

Section Picker.
Context `{Widgets}.

(** [type pickerModel struct].  A nil [matches] slice is the empty
    list. *)
Record pickerModel := mkModel {
  worktrees : list db.Worktree;
  filtered : list Z;
  matches : list fuzzy.Match;
  cursor : Z;
  input : textinput_Model;
  action : PickerAction;
  quitting : bool;
  height : Z
}.

Definition newPickerModel (worktrees : list db.Worktree) : pickerModel :=
  {| worktrees := worktrees;
     filtered := seqZ 0 (len worktrees);
     matches := [];
     cursor := 0;
     input := textinput_New;
     action := ActionNone;
     quitting := false;
     height := 10 |}.

(** [formatWorktreeLabel] *)
Definition formatWorktreeLabel (wt : db.Worktree) : string :=
  db.wt_RepoName wt +:+ "/" +:+ db.wt_Branch wt
    +:+ (if db.wt_IsMain wt then " [main]" else "").

(** [worktreeStrings] *)
Definition worktreeStrings (m : pickerModel) : list string :=
  map (fun wt => formatWorktreeLabel wt +:+ " " +:+ db.wt_Path wt) (worktrees m).

(** [updateFilter], on a model whose [input] is already updated. *)
Definition updateFilter (m : pickerModel) : pickerModel :=
  let query := textinput_Value (input m) in
  let found := fuzzy_Find query (worktreeStrings m) in
  let filtered' :=
    if decide (query = "") then seqZ 0 (len (worktrees m))
    else map fuzzy.Index found in
  let matches' := if decide (query = "") then [] else found in
  {| worktrees := worktrees m;
     filtered := filtered';
     matches := matches';
     cursor := if cursor m >=? len filtered'
               then Z.max 0 (len filtered' - 1) else cursor m;
     input := input m;
     action := action m;
     quitting := quitting m;
     height := height m |}.

Definition quit_with (a : PickerAction) (m : pickerModel) : pickerModel :=
  {| worktrees := worktrees m; filtered := filtered m; matches := matches m;
     cursor := cursor m; input := input m;
     action := a; quitting := true; height := height m |}.

Definition set_cursor (c : Z) (m : pickerModel) : pickerModel :=
  {| worktrees := worktrees m; filtered := filtered m; matches := matches m;
     cursor := c; input := input m;
     action := action m; quitting := quitting m; height := height m |}.

Definition set_height (h : Z) (m : pickerModel) : pickerModel :=
  {| worktrees := worktrees m; filtered := filtered m; matches := matches m;
     cursor := cursor m; input := input m;
     action := action m; quitting := quitting m; height := h |}.

Definition set_input (i : textinput_Model) (m : pickerModel) : pickerModel :=
  {| worktrees := worktrees m; filtered := filtered m; matches := matches m;
     cursor := cursor m; input := i;
     action := action m; quitting := quitting m; height := height m |}.

(** The tail of [Update]: "Update text input", then [updateFilter]. *)
Definition editQuery (m : pickerModel) (msg : tea.Msg) : pickerModel * tea.Cmd :=
  (updateFilter (set_input (textinput_Update (input m) msg) m), tea.CmdInput).

(** [pickerModel.Update].  [None] is an index-out-of-range panic in the
    Ctrl-D case. *)
Definition Update (m : pickerModel) (msg : tea.Msg) : option (pickerModel * tea.Cmd) :=
  match msg with
  | tea.WindowSizeMsg _ Height =>
      Some (set_height (Z.min (Height - 3) 20) m, tea.CmdNil)
  | tea.KeyMsg tea.KeyCtrlC | tea.KeyMsg tea.KeyEsc =>
      Some (quit_with ActionNone m, tea.Quit)
  | tea.KeyMsg tea.KeyTab =>
      Some (quit_with ActionAdd m, tea.Quit)
  | tea.KeyMsg tea.KeyCtrlD =>
      if len (filtered m) >? 0 then
        idx ← index (filtered m) (cursor m);
        wt ← index (worktrees m) idx;
        if negb (db.wt_IsMain wt)
        then Some (quit_with ActionDelete m, tea.Quit)
        else Some (m, tea.CmdNil)
      else Some (m, tea.CmdNil)
  | tea.KeyMsg tea.KeyEnter =>
      if len (filtered m) >? 0
      then Some (quit_with ActionSwitch m, tea.Quit)
      else Some (editQuery m msg)
  | tea.KeyMsg tea.KeyUp | tea.KeyMsg tea.KeyCtrlP =>
      if cursor m >? 0
      then Some (set_cursor (cursor m - 1) m, tea.CmdNil)
      else Some (m, tea.CmdNil)
  | tea.KeyMsg tea.KeyDown | tea.KeyMsg tea.KeyCtrlN =>
      if cursor m <? len (filtered m) - 1
      then Some (set_cursor (cursor m + 1) m, tea.CmdNil)
      else Some (m, tea.CmdNil)
  | _ => Some (editQuery m msg)
  end.

(** [tea.Program.Run]: messages are handed to [Update] until it answers
    [tea.Quit].  A panic in [Update] and the end of the input both end
    the program with an error. *)
Fixpoint Run (m : pickerModel) (msgs : list tea.Msg) : result pickerModel * list tea.Msg :=
  match msgs with
  | [] => (Err "tea: input closed", [])
  | msg :: rest =>
      match Update m msg with
      | None => (Err "tea: program panicked", rest)
      | Some (m', tea.Quit) => (Ok m', rest)
      | Some (m', _) => Run m' rest
      end
  end.

(** The worktree under the cursor, [worktrees[filtered[cursor]]]. *)
Definition selected (m : pickerModel) : option db.Worktree :=
  idx ← index (filtered m) (cursor m);
  index (worktrees m) idx.

End Picker.

Section Programs.
Context `{System} `{Widgets}.

Definition run_program (m : pickerModel) : M (result pickerModel) :=
  fun s => let '(r, rest) := Run m (st_keys s) in
           (r, {| st_db := st_db s; st_world := st_world s; st_keys := rest;
                  st_stdin := st_stdin s; st_out := st_out s |}).

(** [PickWorktree] *)
Definition PickWorktree (worktrees : list db.Worktree) : M (result PickerResult) :=
  if decide (len worktrees = 0) then
    ret (Ok {| Action := ActionAdd; Worktree := None |})
  else
    (final <-? run_program (newPickerModel worktrees) ;;
     if (bool_decide (action final = ActionSwitch)
         || bool_decide (action final = ActionDelete)
         || bool_decide (action final = ActionAdd))
        && (len (filtered final) >? 0)
     then match selected final with
          | Some wt => ret (Ok {| Action := action final; Worktree := Some wt |})
          | None => ret (Err "panic: index out of range")
          end
     else ret (Ok {| Action := action final; Worktree := None |}))%cmd.

(** [PickWorktreeSimple] *)
Definition PickWorktreeSimple (worktrees : list db.Worktree)
  : M (result (option db.Worktree)) :=
  if decide (len worktrees = 0) then ret (Ok None)
  else
    (final <-? run_program (newPickerModel worktrees) ;;
     if bool_decide (action final = ActionSwitch) && (len (filtered final) >? 0)
     then match selected final with
          | Some wt => ret (Ok (Some wt))
          | None => ret (Err "panic: index out of range")
          end
     else ret (Ok None))%cmd.

(** [Confirm]: one raw byte from standard input; Enter (CR or LF)
    confirms. *)
Definition Confirm (message : string) : M (result bool) :=
  (print (Stderr (message +:+ " [enter to confirm] ")) ;;
   w <- get_world ;;
   match term_MakeRaw w with
   | Err e => ret (Err e)
   | Ok _ =>
       fun s =>
         match st_stdin s with
         | [] => (print (Stderr nl) ;; ret (Err "EOF")) s
         | b :: rest =>
             (put_stdin rest ;;
              print (Stderr nl) ;;
              ret (Ok (bool_decide (b = "013"%char) || bool_decide (b = "010"%char)))) s
         end
   end)%cmd.

End Programs.

End ui.

(** ** Package cmd: reconciler and workflows (root.go, add.go, remove.go) *)

Module cmd.

Section Commands.
Context `{System} `{Widgets}.

Local Open Scope cmd_scope.

(** [ensureCurrentRepoInDB] *)
Definition ensureCurrentRepoInDB (cwd : string) : M (result unit) :=
  w <- get_world ;;
  match git_GetMainRepoPath w cwd with
  | Err e => ret (Err (Errorf "failed to get main repo path: " e ""))
  | Ok mainRepoPath =>
      d <- get_db ;;
      match db.GetRepoByPath d mainRepoPath with
      | Err e => ret (Err (Errorf "failed to check repo: " e ""))
      | Ok (Some _) => ret (Ok tt)
      | Ok None =>
          let repo :=
            {| db.repo_ID := 0;
               db.repo_Path := mainRepoPath;
               db.repo_Name := git.GetRepoName mainRepoPath;
               db.repo_WorktreesDir := git.GetDefaultWorktreesDir mainRepoPath;
               db.repo_LastSyncedAt := None;
               db.repo_CreatedAt := 0;
               db.repo_DeletedAt := None |} in
          wrap "failed to save repo: "
            (exec_db (fun t d => match db.UpsertRepo t d repo with
                                 | Ok (d', _) => Ok d'
                                 | Err e => Err e
                                 end))
      end
  end.

(** The [db.Worktree] built for one entry of the live listing. *)
Definition observed (repo : db.Repo) (gwt : git.WorktreeInfo) : db.Worktree :=
  {| db.wt_ID := 0;
     db.wt_RepoID := db.repo_ID repo;
     db.wt_Path := git.gwt_Path gwt;
     db.wt_Branch := git.gwt_Branch gwt;
     db.wt_IsMain := git.gwt_IsMain gwt;
     db.wt_CreatedAt := 0;
     db.wt_DeletedAt := None;
     db.wt_RepoName := "";
     db.wt_RepoPath := "" |}.

(** The loop "Upsert each worktree" of [syncWorktrees]; [existingPaths]
    accumulates the observed paths. *)
Fixpoint upsertEach (repo : db.Repo) (gitWorktrees : list git.WorktreeInfo)
    (existingPaths : list string) : M (result (list string)) :=
  match gitWorktrees with
  | [] => ret (Ok existingPaths)
  | gwt :: rest =>
      _ <-? exec_db (fun t d => match db.UpsertWorktree t d (observed repo gwt) with
                                | Ok (d', _) => Ok d'
                                | Err e => Err e
                                end) ;;
      upsertEach repo rest (existingPaths ++ [git.gwt_Path gwt])
  end.

(** [syncWorktrees] *)
Definition syncWorktrees (repo : db.Repo) : M (result unit) :=
  w <- get_world ;;
  match git_ListWorktrees w (db.repo_Path repo) with
  | Err e => ret (Err e)
  | Ok gitWorktrees =>
      existingPaths <-? upsertEach repo gitWorktrees [] ;;
      _ <-? exec_db (fun t d =>
                       db.SoftDeleteMissingWorktrees t d (db.repo_ID repo) existingPaths) ;;
      ret (Ok tt)
  end.

(** The body of the loop of [syncAllRepos] for one repository. *)
Definition syncOne (repo : db.Repo) : M unit :=
  r <- syncWorktrees repo ;;
  match r with
  | Err e =>
      print (Stderr ("warning: failed to sync " +:+ db.repo_Name repo +:+ ": " +:+ e +:+ nl))
  | Ok _ =>
      r' <- exec_db (fun t d => db.UpdateLastSynced t d (db.repo_ID repo)) ;;
      match r' with
      | Err e =>
          print (Stderr ("warning: failed to update sync timestamp for "
                         +:+ db.repo_Name repo +:+ ": " +:+ e +:+ nl))
      | Ok _ => ret tt
      end
  end.

Fixpoint forEach {A} (body : A -> M unit) (l : list A) : M unit :=
  match l with
  | [] => ret tt
  | x :: rest => body x ;; forEach body rest
  end.

(** [syncAllRepos] *)
Definition syncAllRepos : M (result unit) :=
  d <- get_db ;;
  match db.ListRepos d with
  | Err e => ret (Err (Errorf "failed to list repos: " e ""))
  | Ok repos => forEach syncOne repos ;; ret (Ok tt)
  end.

(** [deleteWorktree]: the inline delete, called by the selector loop of
    [runRoot] for [ActionDelete]. *)
Definition deleteWorktree (wt : db.Worktree) : M (result unit) :=
  if db.wt_IsMain wt then ret (Err "cannot delete the main worktree")
  else
    confirmed <-? ui.Confirm ("Delete worktree " +:+ db.wt_RepoName wt +:+ "/"
                              +:+ db.wt_Branch wt +:+ "?") ;;
    if negb confirmed then ret (Ok tt)
    else
      print (Stderr ("Removing worktree..." +:+ nl)) ;;
      r <- call_world (fun w => git_RemoveWorktree w (db.wt_RepoPath wt) (db.wt_Path wt)) ;;
      _ <-? match r with
            | Ok _ => ret (Ok tt)
            | Err _ =>
                (* Try force remove *)
                wrap "failed to remove worktree: "
                  (call_world (fun w => git_RemoveWorktreeForce w (db.wt_RepoPath wt)
                                                                (db.wt_Path wt)))
            end ;;
      _ <-? wrap "failed to update database: "
              (exec_db (fun t d => db.SoftDeleteWorktree t d (db.wt_ID wt))) ;;
      print (Stderr ("Worktree deleted." +:+ nl)) ;;
      ret (Ok tt).

(** The sync phase that opens [runRoot] and [runRemove]. *)
Definition syncPhase : M (result unit) :=
  w <- get_world ;;
  match os_Getwd w with
  | Err e => ret (Err (Errorf "failed to get current directory: " e ""))
  | Ok cwd =>
      _ <-? (if git_IsInsideRepo w cwd then ensureCurrentRepoInDB cwd else ret (Ok tt)) ;;
      syncAllRepos
  end.

(** [runRemove], from "var worktree *db.Worktree" to the end of the
    resolution: by path when an argument is given, else by the picker over
    the non-main worktrees.  [Ok None] is the cancelled picker. *)
Definition resolveWorktree (args : list string) : M (result (option db.Worktree)) :=
  match args with
  | path :: _ =>
      d <- get_db ;;
      match db.GetWorktreeByPath d path with
      | Err e => ret (Err (Errorf "failed to get worktree: " e ""))
      | Ok None => ret (Err ("worktree not found: " +:+ path))
      | Ok (Some worktree) => ret (Ok (Some worktree))
      end
  | [] =>
      d <- get_db ;;
      match db.ListAllWorktrees d with
      | Err e => ret (Err (Errorf "failed to list worktrees: " e ""))
      | Ok worktrees =>
          let removable := List.filter (fun wt => negb (db.wt_IsMain wt)) worktrees in
          if decide (len removable = 0)
          then ret (Err "no removable worktrees found (main worktrees cannot be removed)")
          else ui.PickWorktreeSimple removable
      end
  end.

(** [runRemove], from "Check if it's the main worktree" to the end: the
    Remove workflow on the resolved worktree. *)
Definition removeWorktree (removeForce : bool) (worktree : db.Worktree) : M (result unit) :=
  if db.wt_IsMain worktree then ret (Err "cannot remove the main worktree")
  else
    confirmed <-? ui.Confirm ("Remove worktree '" +:+ db.wt_RepoName worktree +:+ "/"
                              +:+ db.wt_Branch worktree +:+ "' at "
                              +:+ db.wt_Path worktree +:+ "?") ;;
    if negb confirmed then print (Stdout ("Cancelled." +:+ nl)) ;; ret (Ok tt)
    else
      print (Stderr ("Removing worktree..." +:+ nl)) ;;
      removeErr <-
        (if removeForce
         then call_world (fun w => git_RemoveWorktreeForce w (db.wt_RepoPath worktree)
                                                           (db.wt_Path worktree))
         else call_world (fun w => git_RemoveWorktree w (db.wt_RepoPath worktree)
                                                      (db.wt_Path worktree))) ;;
      match removeErr with
      | Err e => ret (Err (Errorf "failed to remove worktree: " e
                                  " (use --force to force removal)"))
      | Ok _ =>
          _ <-? wrap "failed to update database: "
                  (exec_db (fun t d => db.SoftDeleteWorktree t d (db.wt_ID worktree))) ;;
          print (Stderr ("Worktree removed successfully." +:+ nl)) ;;
          ret (Ok tt)
      end.

(** [runRemove] *)
Definition runRemove (removeForce : bool) (args : list string) : M (result unit) :=
  _ <-? syncPhase ;;
  worktree <-? resolveWorktree args ;;
  match worktree with
  | None => ret (Ok tt)
  | Some worktree => removeWorktree removeForce worktree
  end.

(** [runAddWithBranchFromRepo] *)
Definition runAddWithBranchFromRepo (repoPath branch : string) : M (result unit) :=
  _ <-? ensureCurrentRepoInDB repoPath ;;
  let dirName := strings.ReplaceAll branch "/" "-" in
  let worktreesDir := git.GetDefaultWorktreesDir repoPath in
  let targetPath := filepath.Join [worktreesDir; dirName] in
  w <- get_world ;;
  if is_ok (os_Stat w targetPath)
  then ret (Err ("worktree directory already exists: " +:+ targetPath))
  else
    _ <-? wrap "failed to create worktrees directory: "
            (call_world (fun w => os_MkdirAll w worktreesDir)) ;;
    print (Stderr ("Creating worktree for branch '" +:+ branch +:+ "' at "
                   +:+ targetPath +:+ "..." +:+ nl)) ;;
    _ <-? wrap "failed to create worktree: "
            (call_world (fun w => git_AddWorktree w repoPath branch targetPath)) ;;
    d <- get_db ;;
    match db.GetRepoByPath d repoPath with
    | Err e => ret (Err (Errorf "failed to get repo from database: " e ""))
    | Ok None => ret (Err "failed to get repo from database: %!w(<nil>)")
    | Ok (Some repo) =>
        _ <-? wrap "failed to sync worktrees: " (syncWorktrees repo) ;;
        print (Stderr ("Worktree created successfully." +:+ nl)) ;;
        print (StdoutCd targetPath) ;;
        ret (Ok tt)
    end.

End Commands.

End cmd.

(** ** Vocabulary of the properties *)

Definition chars (s : string) : list ascii := list_ascii_of_string s.

(** Path elements: without separator; usable as an element of a cleaned
    path (".." included); and a plain name, which is neither. *)
Definition slash_free (s : string) : Prop := ~ "/"%char ∈ chars s.

Definition element_ok (s : string) : Prop := s <> "" /\ s <> "." /\ slash_free s.

Definition plain_name (s : string) : Prop := element_ok s /\ s <> "..".

(** The stacks [filepath.Clean] builds: ".." only at the bottom of a
    relative path. *)
Fixpoint clean_stack (rooted : bool) (stack : list string) : Prop :=
  match stack with
  | [] => True
  | x :: rest =>
      element_ok x /\ clean_stack rooted rest
      /\ (x = ".." -> rooted = false /\ match rest with [] => True | y :: _ => y = ".." end)
  end.

(** The catalog operations of package [db], as commands on the tables.  A
    read leaves the tables as they are. *)
Module Catalog.

Inductive Op :=
| UpsertRepo (repo : db.Repo)
| GetRepoByPath (path : string)
| GetRepoByID (id : Z)
| ListRepos
| SoftDeleteRepo (id : Z)
| UpdateLastSynced (id : Z)
| UpsertWorktree (wt : db.Worktree)
| GetWorktreeByPath (path : string)
| ListWorktreesByRepo (repoID : Z)
| ListAllWorktrees
| ListAllWorktreesWithRepoFirst (currentRepoPath : string)
| SoftDeleteWorktree (id : Z)
| SoftDeleteWorktreeByPath (path : string)
| SoftDeleteMissingWorktrees (repoID : Z) (existingPaths : list string).

Definition reading {A} (d : db.DB) (r : result A) : result db.DB :=
  match r with Ok _ => Ok d | Err e => Err e end.

Definition writing {A} (r : result (db.DB * A)) : result db.DB :=
  match r with Ok (d, _) => Ok d | Err e => Err e end.

Definition run (now : Z) (op : Op) (d : db.DB) : result db.DB :=
  match op with
  | UpsertRepo repo => writing (db.UpsertRepo now d repo)
  | GetRepoByPath path => reading d (db.GetRepoByPath d path)
  | GetRepoByID id => reading d (db.GetRepoByID d id)
  | ListRepos => reading d (db.ListRepos d)
  | SoftDeleteRepo id => db.SoftDeleteRepo now d id
  | UpdateLastSynced id => db.UpdateLastSynced now d id
  | UpsertWorktree wt => writing (db.UpsertWorktree now d wt)
  | GetWorktreeByPath path => reading d (db.GetWorktreeByPath d path)
  | ListWorktreesByRepo repoID => reading d (db.ListWorktreesByRepo d repoID)
  | ListAllWorktrees => reading d (db.ListAllWorktrees d)
  | ListAllWorktreesWithRepoFirst p => reading d (db.ListAllWorktreesWithRepoFirst d p)
  | SoftDeleteWorktree id => db.SoftDeleteWorktree now d id
  | SoftDeleteWorktreeByPath path => db.SoftDeleteWorktreeByPath now d path
  | SoftDeleteMissingWorktrees repoID existingPaths =>
      db.SoftDeleteMissingWorktrees now d repoID existingPaths
  end.

(** The schema's [PRIMARY KEY] and [UNIQUE] constraints on [worktrees]. *)
Definition keys_unique (d : db.DB) : Prop :=
  NoDup (map db.row_id (db.worktrees d)) /\ NoDup (map db.row_path (db.worktrees d)).

(** The non-deleted rows of [worktrees] owned by a repository. *)
Definition live_rows (d : db.DB) (repoID : Z) : list db.WorktreeRow :=
  filter (fun r => db.row_repo_id r = repoID /\ db.row_deleted_at r = None) (db.worktrees d).

Definition live_paths (d : db.DB) (repoID : Z) : gset string :=
  list_to_set (map db.row_path (live_rows d repoID)).

(** The paths of a live listing. *)
Definition listed_paths (L : list git.WorktreeInfo) : gset string :=
  list_to_set (map git.gwt_Path L).

End Catalog.

(** The matcher is sound for a notion [matching] of "the pattern matches the
    string": every match names, by its index, an entry of [data] that the
    pattern matches. *)
Definition Find_sound `{Widgets} (matching : string -> string -> Prop) : Prop :=
  forall pattern data m,
    m ∈ fuzzy_Find pattern data ->
    exists s, index data (fuzzy.Index m) = Some s /\ matching pattern s.







(** Selector states reachable from the initial model over a snapshot. *)
Inductive reachable `{Widgets} (snapshot : list db.Worktree) : ui.pickerModel -> Prop :=
| reachable_init : reachable snapshot (ui.newPickerModel snapshot)
| reachable_step m msg m' c :
    reachable snapshot m -> ui.Update m msg = Some (m', c) -> reachable snapshot m'.

(** The cursor invariant of the selector. *)
Definition cursor_ok `{Widgets} (m : ui.pickerModel) : Prop :=
  0 <= ui.cursor m /\ (ui.filtered m <> [] -> ui.cursor m < len (ui.filtered m)).

(** Every filtered index is an index into the snapshot. *)
Definition indices_ok `{Widgets} (m : ui.pickerModel) : Prop :=
  Forall (fun idx => 0 <= idx < len (ui.worktrees m)) (ui.filtered m).

(** Whether the terminal, as it stands, answers a confirmation prompt with
    Enter. *)
Definition confirms `{System} (s : State) : bool :=
  is_ok (term_MakeRaw (st_world s))
  && match st_stdin s with
     | b :: _ => bool_decide (b = "013"%char) || bool_decide (b = "010"%char)
     | [] => false
     end.

(** What a workflow can change besides its messages: the catalog, the world,
    and the pending input. *)
Definition effects `{System} (s : State) : db.DB * World * list tea.Msg * list ascii :=
  (st_db s, st_world s, st_keys s, st_stdin s).

(** The inline delete and the Remove workflow (without --force) agree on a
    worktree in a state: same kind of outcome, same effects. *)
Definition same_sequence `{System} (wt : db.Worktree) (s : State) : Prop :=
  is_ok (cmd.deleteWorktree wt s).1 = is_ok (cmd.removeWorktree false wt s).1
  /\ effects (cmd.deleteWorktree wt s).2 = effects (cmd.removeWorktree false wt s).2.

(** Every repository row carries the default worktrees directory of its
    path, as [ensureCurrentRepoInDB] writes it. *)
Definition default_dirs (d : db.DB) : Prop :=
  forall r, r ∈ db.repos d -> db.repo_WorktreesDir r = git.GetDefaultWorktreesDir (db.repo_Path r).

(** ** A concrete world and toolkit, for running the model *)

Module Example.

(** A small git world: the working directory, the worktree listing of each
    repository path, the worktrees with uncommitted changes (which plain
    [git worktree remove] refuses), and the clock. *)
Record Disk := mkDisk {
  disk_cwd : string;
  disk_repos : list (string * list git.WorktreeInfo);
  disk_dirty : list string;
  disk_clock : Z
}.

Definition listing (w : Disk) (repoPath : string) : option (list git.WorktreeInfo) :=
  snd <$> find (fun e => bool_decide (e.1 = repoPath)) (disk_repos w).

Definition without (path : string) (w : Disk) : Disk :=
  {| disk_cwd := disk_cwd w;
     disk_repos :=
       map (fun e => (e.1, List.filter (fun i => negb (bool_decide (git.gwt_Path i = path))) e.2))
           (disk_repos w);
     disk_dirty := disk_dirty w;
     disk_clock := disk_clock w |}.

Definition with_worktree (repoPath : string) (i : git.WorktreeInfo) (w : Disk) : Disk :=
  {| disk_cwd := disk_cwd w;
     disk_repos :=
       map (fun e => if decide (e.1 = repoPath) then (e.1, e.2 ++ [i]) else e) (disk_repos w);
     disk_dirty := disk_dirty w;
     disk_clock := disk_clock w |}.

Definition on_disk (w : Disk) (path : string) : bool :=
  existsb (fun e => existsb (fun i => bool_decide (git.gwt_Path i = path)) e.2) (disk_repos w).

#[export] Instance disk_system : System := {|
  World := Disk;
  git_IsInsideRepo w path := bool_decide (is_Some (listing w path));
  git_GetMainRepoPath w path :=
    if decide (is_Some (listing w path)) then Ok path
    else Err "exit status 128";
  git_ListWorktrees w repoPath :=
    match listing w repoPath with
    | Some l => Ok l
    | None => Err "exit status 128"
    end;
  git_AddWorktree w repoPath branch targetPath :=
    (with_worktree repoPath
       {| git.gwt_Path := targetPath; git.gwt_Branch := branch; git.gwt_IsMain := false |} w,
     Ok tt);
  git_RemoveWorktree w repoPath worktreePath :=
    if decide (worktreePath ∈ disk_dirty w) then (w, Err "exit status 128")
    else (without worktreePath w, Ok tt);
  git_RemoveWorktreeForce w repoPath worktreePath := (without worktreePath w, Ok tt);
  os_Getwd w := Ok (disk_cwd w);
  os_Stat w path := if on_disk w path then Ok tt else Err "no such file or directory";
  os_MkdirAll w path := (w, Ok tt);
  term_MakeRaw w := Ok tt;
  current_timestamp w := disk_clock w
|}.

(** Greedy test that the characters of [q] occur in [s] in order. *)
Fixpoint is_subsequence (q s : list ascii) : bool :=
  match q, s with
  | [], _ => true
  | _ :: _, [] => false
  | a :: q', c :: s' => if decide (a = c) then is_subsequence q' s' else is_subsequence q s'
  end.

(** Modelled from the spec: the fuzzy matcher as a plain ordered-subsequence
    filter, in the order of [data] (the scorer of the original is not part
    of the contract). *)
Fixpoint subsequence_matches (pattern : string) (data : list string) (i : Z)
  : list fuzzy.Match :=
  match data with
  | [] => []
  | s :: rest =>
      if is_subsequence (chars pattern) (chars s)
      then {| fuzzy.Str := s; fuzzy.Index := i; fuzzy.MatchedIndexes := []; fuzzy.Score := 0 |}
           :: subsequence_matches pattern rest (i + 1)
      else subsequence_matches pattern rest (i + 1)
  end.

Fixpoint drop_last (s : string) : string :=
  match s with
  | EmptyString => EmptyString
  | String c EmptyString => EmptyString
  | String c s' => String c (drop_last s')
  end.

(** A text input that is only its value. *)
#[export] Instance line_widgets : Widgets := {|
  textinput_Model := string;
  textinput_New := "";
  textinput_Value v := v;
  textinput_Update v msg :=
    match msg with
    | tea.KeyMsg (tea.KeyRunes r) => v +:+ r
    | tea.KeyMsg tea.KeyBackspace => drop_last v
    | _ => v
    end;
  fuzzy_Find pattern data := subsequence_matches pattern data 0
|}.




(** Repository A at /A.  The catalog has its worktrees /A (main),
    /A.worktrees/x and /A.worktrees/gone, and the tombstoned
    /A.worktrees/old; git lists /A, /A.worktrees/x and /A.worktrees/y, and
    /A.worktrees/x has uncommitted changes. *)
Definition repoA : db.Repo :=
  {| db.repo_ID := 1; db.repo_Path := "/A"; db.repo_Name := "A";
     db.repo_WorktreesDir := "/A.worktrees"; db.repo_LastSyncedAt := None;
     db.repo_CreatedAt := 100; db.repo_DeletedAt := None |}.

Definition rowMain : db.WorktreeRow :=
  {| db.row_id := 1; db.row_repo_id := 1; db.row_path := "/A"; db.row_branch := "main";
     db.row_is_main := true; db.row_created_at := 100; db.row_deleted_at := None |}.

Definition rowX : db.WorktreeRow :=
  {| db.row_id := 2; db.row_repo_id := 1; db.row_path := "/A.worktrees/x";
     db.row_branch := "feature/x"; db.row_is_main := false;
     db.row_created_at := 100; db.row_deleted_at := None |}.

Definition rowOld : db.WorktreeRow :=
  {| db.row_id := 3; db.row_repo_id := 1; db.row_path := "/A.worktrees/old";
     db.row_branch := "old"; db.row_is_main := false;
     db.row_created_at := 100; db.row_deleted_at := Some 150 |}.

Definition rowGone : db.WorktreeRow :=
  {| db.row_id := 4; db.row_repo_id := 1; db.row_path := "/A.worktrees/gone";
     db.row_branch := "gone"; db.row_is_main := false;
     db.row_created_at := 100; db.row_deleted_at := None |}.

Definition catalog : db.DB :=
  {| db.repos := [repoA]; db.worktrees := [rowMain; rowX; rowOld; rowGone] |}.

Definition disk : Disk :=
  {| disk_cwd := "/A";
     disk_repos :=
       [("/A", [ {| git.gwt_Path := "/A"; git.gwt_Branch := "main"; git.gwt_IsMain := true |};
                 {| git.gwt_Path := "/A.worktrees/x"; git.gwt_Branch := "feature/x";
                    git.gwt_IsMain := false |};
                 {| git.gwt_Path := "/A.worktrees/y"; git.gwt_Branch := "feature/y";
                    git.gwt_IsMain := false |} ])];
     disk_dirty := ["/A.worktrees/x"];
     disk_clock := 200 |}.

Definition enter : ascii := "013"%char.

Definition start : State :=
  {| st_db := catalog; st_world := disk; st_keys := []; st_stdin := [enter]; st_out := [] |}.

Definition wtMain : db.Worktree := db.scan_worktree (rowMain, repoA).
Definition wtX : db.Worktree := db.scan_worktree (rowX, repoA).

Definition listingA : list git.WorktreeInfo :=
  [ {| git.gwt_Path := "/A"; git.gwt_Branch := "main"; git.gwt_IsMain := true |};
    {| git.gwt_Path := "/A.worktrees/x"; git.gwt_Branch := "feature/x";
       git.gwt_IsMain := false |};
    {| git.gwt_Path := "/A.worktrees/y"; git.gwt_Branch := "feature/y";
       git.gwt_IsMain := false |} ].

(** The same disk at a later time. *)
Definition later : Disk :=
  {| disk_cwd := disk_cwd disk; disk_repos := disk_repos disk;
     disk_dirty := disk_dirty disk; disk_clock := 999 |}.

(** A second tracked repository whose directory is gone; by name it comes
    before A. *)
Definition repoGone : db.Repo :=
  {| db.repo_ID := 2; db.repo_Path := "/gone"; db.repo_Name := "0gone";
     db.repo_WorktreesDir := "/gone.worktrees"; db.repo_LastSyncedAt := Some 50;
     db.repo_CreatedAt := 10; db.repo_DeletedAt := None |}.

Definition start2 : State :=
  {| st_db := {| db.repos := [repoA; repoGone]; db.worktrees := db.worktrees catalog |};
     st_world := disk; st_keys := []; st_stdin := []; st_out := [] |}.

(** An upsert of the tombstoned path. *)
Definition wtOld : db.Worktree :=
  {| db.wt_ID := 0; db.wt_RepoID := 1; db.wt_Path := "/A.worktrees/old";
     db.wt_Branch := "old"; db.wt_IsMain := false; db.wt_CreatedAt := 0;
     db.wt_DeletedAt := None; db.wt_RepoName := ""; db.wt_RepoPath := "" |}.

(** The selector over the two live worktrees, after "x" was typed. *)
Definition picker : ui.pickerModel := ui.newPickerModel [wtMain; wtX].

Definition typed_x : ui.pickerModel :=
  ui.updateFilter (ui.set_input "x" picker).



(** A repository at /r, not yet in the catalog, whose worktree directory for
    branch feature/foo is already there. *)
Definition diskR : Disk :=
  {| disk_cwd := "/r";
     disk_repos :=
       [("/r", [ {| git.gwt_Path := "/r"; git.gwt_Branch := "main"; git.gwt_IsMain := true |};
                 {| git.gwt_Path := "/r.worktrees/feature-foo"; git.gwt_Branch := "feature/foo";
                    git.gwt_IsMain := false |} ])];
     disk_dirty := [];
     disk_clock := 300 |}.

Definition startR : State :=
  {| st_db := {| db.repos := []; db.worktrees := [] |}; st_world := diskR;
     st_keys := []; st_stdin := []; st_out := [] |}.

End Example.

(** ** The reconciler on the tables alone

    [syncWorktrees] touches the program state only through the database;
    these are its two phases as functions of the tables, for a listing
    already obtained.  [sync_tables_run] relates them to the command. *)

Definition with_db `{System} (d : db.DB) (s : State) : State :=
  {| st_db := d; st_world := st_world s; st_keys := st_keys s;
     st_stdin := st_stdin s; st_out := st_out s |}.

Fixpoint upsert_all (t : Z) (repo : db.Repo) (L : list git.WorktreeInfo) (d : db.DB)
  : result db.DB :=
  match L with
  | [] => Ok d
  | gwt :: rest =>
      match db.UpsertWorktree t d (cmd.observed repo gwt) with
      | Ok (d', _) => upsert_all t repo rest d'
      | Err e => Err e
      end
  end.

Definition sync_tables (t : Z) (repo : db.Repo) (L : list git.WorktreeInfo) (d : db.DB)
  : result db.DB :=
  match upsert_all t repo L d with
  | Ok d' => db.SoftDeleteMissingWorktrees t d' (db.repo_ID repo) (map git.gwt_Path L)
  | Err e => Err e
  end.

(** The entry of a listing that decides a path's row: the last one with
    that path. *)
Fixpoint last_listed (path : string) (L : list git.WorktreeInfo) : option git.WorktreeInfo :=
  match L with
  | [] => None
  | gwt :: rest =>
      match last_listed path rest with
      | Some g => Some g
      | None => if decide (git.gwt_Path gwt = path) then Some gwt else None
      end
  end.

(** What the upserts of a listing make of a row that is already there. *)
Definition reconciled (repo : db.Repo) (L : list git.WorktreeInfo) (r : db.WorktreeRow)
  : db.WorktreeRow :=
  match last_listed (db.row_path r) L with
  | Some gwt => db.conflict_update (cmd.observed repo gwt) r
  | None => r
  end.

(** What [SoftDeleteMissingWorktrees] makes of a row. *)
Definition tombstone_missing (t repoID : Z) (paths : list string) (r : db.WorktreeRow)
  : db.WorktreeRow :=
  if decide (db.row_repo_id r = repoID /\ db.row_deleted_at r = None
             /\ ~ db.row_path r ∈ paths)
  then db.tombstone t r else r.

(** A row as an upsert of [gwt] for [repo] leaves it. *)
Definition mirrors (repo : db.Repo) (gwt : git.WorktreeInfo) (r : db.WorktreeRow) : Prop :=
  db.row_repo_id r = db.repo_ID repo
  /\ db.row_branch r = git.gwt_Branch gwt
  /\ db.row_is_main r = git.gwt_IsMain gwt
  /\ db.row_deleted_at r = None.

(** * Properties *)

(** ** The selector *)

Section Selector.
Context `{Widgets}.

Lemma len_nonneg {A} (l : list A) : 0 <= len l.
Proof. unfold len. lia. Qed.

Lemma len_zero_nil {A} (l : list A) : len l = 0 <-> l = [].
Proof. unfold len. destruct l; simpl; split; intros; try done; lia. Qed.

Lemma len_seqZ n : 0 <= n -> len (seqZ 0 n) = n.
Proof. intros. unfold len. rewrite length_seqZ. lia. Qed.

Lemma index_Some {A} (l : list A) i x :
  index l i = Some x <-> 0 <= i /\ l !! Z.to_nat i = Some x.
Proof.
  unfold index. destruct (Z.ltb_spec i 0); split.
  - discriminate.
  - intros [? _]. lia.
  - auto.
  - intros [_ ?]. done.
Qed.

Lemma index_lt {A} (l : list A) i x : index l i = Some x -> 0 <= i < len l.
Proof.
  rewrite index_Some. intros [? Hl]. apply lookup_lt_Some in Hl. unfold len. lia.
Qed.

(** Clamping, as [updateFilter] ends. *)
Lemma updateFilter_cursor m :
  0 <= ui.cursor m ->
  ui.cursor (ui.updateFilter m)
  = Z.min (ui.cursor m) (Z.max 0 (len (ui.filtered (ui.updateFilter m)) - 1)).
Proof.
  intros Hc. unfold ui.updateFilter. cbn [ui.cursor ui.filtered].
  set (f := if decide _ then _ else _).
  pose proof (len_nonneg f).
  destruct (Z.geb_spec (ui.cursor m) (len f)); lia.
Qed.

Lemma updateFilter_cursor_ok m : 0 <= ui.cursor m -> cursor_ok (ui.updateFilter m).
Proof.
  intros Hc. pose proof (updateFilter_cursor m Hc) as E.
  split; [lia|]. intros Hne.
  assert (len (ui.filtered (ui.updateFilter m)) <> 0) by (by rewrite len_zero_nil).
  pose proof (len_nonneg (ui.filtered (ui.updateFilter m))). lia.
Qed.

Lemma Update_cursor_ok m msg m' c :
  cursor_ok m -> ui.Update m msg = Some (m', c) -> cursor_ok m'.
Proof.
  intros [H0 Hlt] HU.
  assert (Hedit : cursor_ok (ui.editQuery m msg).1)
    by (apply updateFilter_cursor_ok; exact H0).
  assert (Hm : cursor_ok m) by (split; assumption).
  destruct msg as [wd ht|k|tag]; cbn in HU.
  - by simplify_eq.
  - destruct k; cbn in HU; simplify_eq; try done;
      try (rewrite HU in Hedit; exact Hedit).
    + destruct (len (ui.filtered m) >? 0); [|by simplify_eq].
      destruct (index (ui.filtered m) (ui.cursor m)) as [idx|]; [|done]. cbn in HU.
      destruct (index (ui.worktrees m) idx) as [wt|]; [|done]. cbn in HU.
      destruct (db.wt_IsMain wt); cbn in HU; by simplify_eq.
    + destruct (len (ui.filtered m) >? 0); simplify_eq; [done|by rewrite HU in Hedit].
    + destruct (Z.gtb_spec (ui.cursor m) 0); simplify_eq; [|done].
      split; cbn; [lia|]. intros Hne. specialize (Hlt Hne). lia.
    + destruct (Z.gtb_spec (ui.cursor m) 0); simplify_eq; [|done].
      split; cbn; [lia|]. intros Hne. specialize (Hlt Hne). lia.
    + destruct (Z.ltb_spec (ui.cursor m) (len (ui.filtered m) - 1)); simplify_eq; [|done].
      split; cbn; lia.
    + destruct (Z.ltb_spec (ui.cursor m) (len (ui.filtered m) - 1)); simplify_eq; [|done].
      split; cbn; lia.
  - simplify_eq. by rewrite HU in Hedit.
Qed.

Lemma newPickerModel_cursor_ok ws : cursor_ok (ui.newPickerModel ws).
Proof.
  split; cbn; [lia|]. intros Hne.
  rewrite len_seqZ by apply len_nonneg.
  destruct ws; [done|]. unfold len. cbn. lia.
Qed.

Lemma reachable_cursor_ok ws m : reachable ws m -> cursor_ok m.
Proof.
  induction 1 as [|m msg m' c _ IH HU].
  - apply newPickerModel_cursor_ok.
  - eapply Update_cursor_ok; eauto.
Qed.

(** C9.  In every reachable selector state with a non-empty filtered list
    the cursor lies in [0, len(filtered)); Up/Ctrl-P and Down/Ctrl-N move it
    by exactly one inside that range and do nothing at the ends; and every
    recomputation of the filter, whatever the new query, clamps it into the
    range of the new list. *)
Theorem cursor_in_range (snapshot : list db.Worktree) (m : ui.pickerModel) :
  reachable snapshot m ->
  (ui.filtered m <> [] -> 0 <= ui.cursor m < len (ui.filtered m))
  /\ (forall k, k = tea.KeyUp \/ k = tea.KeyCtrlP ->
        ui.Update m (tea.KeyMsg k)
        = Some (if decide (ui.cursor m = 0) then m
                else ui.set_cursor (ui.cursor m - 1) m, tea.CmdNil))
  /\ (forall k, k = tea.KeyDown \/ k = tea.KeyCtrlN ->
        ui.Update m (tea.KeyMsg k)
        = Some (if decide (ui.filtered m = [] \/ ui.cursor m = len (ui.filtered m) - 1)
                then m else ui.set_cursor (ui.cursor m + 1) m, tea.CmdNil))
  /\ (forall i, let m' := ui.updateFilter (ui.set_input i m) in
        ui.cursor m' = Z.min (ui.cursor m) (Z.max 0 (len (ui.filtered m') - 1))
        /\ (ui.filtered m' <> [] -> 0 <= ui.cursor m' < len (ui.filtered m'))).
Proof.
  intros Hr. destruct (reachable_cursor_ok _ _ Hr) as [H0 Hlt].
  repeat split.
  - exact H0.
  - by apply Hlt.
  - intros k [-> | ->]; cbn;
      (destruct (Z.gtb_spec (ui.cursor m) 0); destruct (decide (ui.cursor m = 0));
       first [done | lia]).
  - intros k Hk.
    destruct Hk as [-> | ->]; cbn;
      (destruct (Z.ltb_spec (ui.cursor m) (len (ui.filtered m) - 1)) as [Hl|Hl];
       destruct (decide _) as [[E|E]|Hn]; try done; exfalso;
       first
         [ lia
         | rewrite E in Hl; unfold len in Hl; simpl in Hl; lia
         | destruct (ui.filtered m) as [|x f] eqn:Ef; [by apply Hn; left|];
           apply Hn; right; specialize (Hlt ltac:(done)); lia ]).
  - apply (updateFilter_cursor (ui.set_input i m)). exact H0.
  - by destruct (updateFilter_cursor_ok (ui.set_input i m) H0).
  - destruct (updateFilter_cursor_ok (ui.set_input i m) H0) as [_ Hc]. by apply Hc.
Qed.

Lemma string_app_assoc (a b c : string) : (a +:+ b) +:+ c = a +:+ (b +:+ c).
Proof.
  induction a as [|x a IH]; [reflexivity|].
  change (String x ((a +:+ b) +:+ c) = String x (a +:+ (b +:+ c))). by rewrite IH.
Qed.








(** Ctrl-D on a main worktree changes nothing and does not end the loop. *)
Lemma Update_delete_main (m : ui.pickerModel) (w : db.Worktree) :
  ui.selected m = Some w -> db.wt_IsMain w = true ->
  ui.Update m (tea.KeyMsg tea.KeyCtrlD) = Some (m, tea.CmdNil).
Proof.
  unfold ui.selected. intros Hsel Hmain. cbn.
  destruct (len (ui.filtered m) >? 0); [|done].
  destruct (index (ui.filtered m) (ui.cursor m)) as [idx|]; [|done]. cbn in *.
  rewrite Hsel. cbn. by rewrite Hmain.
Qed.

End Selector.

(** ** The reconciler *)

Section Reconciler.
Context `{System}.

Lemma with_db_same (s : State) : with_db (st_db s) s = s.
Proof. by destruct s. Qed.

Lemma exec_db_run (stmt : Z -> db.DB -> result db.DB) (s : State) :
  exec_db stmt s =
  match stmt (current_timestamp (st_world s)) (st_db s) with
  | Ok d' => (Ok tt, with_db d' s)
  | Err e => (Err e, s)
  end.
Proof.
  unfold exec_db, bind, now, get_db, put_db, ret, with_db.
  by destruct (stmt _ _).
Qed.

Lemma upsertEach_ok repo L acc (s : State) d' :
  upsert_all (current_timestamp (st_world s)) repo L (st_db s) = Ok d' ->
  cmd.upsertEach repo L acc s = (Ok (acc ++ map git.gwt_Path L), with_db d' s).
Proof.
  revert acc s. induction L as [|gwt rest IH]; intros acc s Hall; cbn in *.
  - simplify_eq. by rewrite app_nil_r, with_db_same.
  - unfold bind. rewrite exec_db_run.
    destruct (db.UpsertWorktree _ _ _) as [[d1 w1]|e]; [|done].
    rewrite (IH _ (with_db d1 s) Hall). by rewrite <- app_assoc.
Qed.

Lemma upsertEach_err repo L acc (s : State) e :
  upsert_all (current_timestamp (st_world s)) repo L (st_db s) = Err e ->
  (cmd.upsertEach repo L acc s).1 = Err e.
Proof.
  revert acc s. induction L as [|gwt rest IH]; intros acc s Hall; cbn in *; [done|].
  unfold bind. rewrite exec_db_run.
  destruct (db.UpsertWorktree _ _ _) as [[d1 w1]|e']; [|by simplify_eq].
  by rewrite (IH _ (with_db d1 s) Hall).
Qed.

(** [syncWorktrees] is [sync_tables] on the listing git reports. *)
Lemma sync_tables_run repo (s : State) :
  cmd.syncWorktrees repo s =
  match git_ListWorktrees (st_world s) (db.repo_Path repo) with
  | Err e => (Err e, s)
  | Ok L =>
      match sync_tables (current_timestamp (st_world s)) repo L (st_db s) with
      | Ok d' => (Ok tt, with_db d' s)
      | Err e => (Err e, (cmd.syncWorktrees repo s).2)
      end
  end.
Proof.
  unfold cmd.syncWorktrees, bind, get_world. cbn.
  destruct (git_ListWorktrees _ _) as [L|e]; [|done].
  unfold sync_tables.
  destruct (upsert_all _ repo L (st_db s)) as [d1|e] eqn:Hall.
  - rewrite (upsertEach_ok _ _ [] _ _ Hall). cbn.
    unfold db.SoftDeleteMissingWorktrees. by case_decide.
  - pose proof (upsertEach_err _ _ [] _ _ Hall) as E.
    destruct (cmd.upsertEach repo L [] s) as [r s1]. cbn in E. by subst r.
Qed.

End Reconciler.

(** ** The tables under upserts and tombstoning *)

Section Tables.

Ltac fmapify :=
  repeat match goal with
         | |- context [map ?f ?l] => change (map f l) with (f <$> l)
         | H : context [map ?f ?l] |- _ => change (map f l) with (f <$> l) in H
         end.

Lemma insert_sorted_perm {A} (le : A -> A -> bool) x l : insert_sorted le x l ≡ₚ x :: l.
Proof.
  induction l as [|y l IH]; cbn; [done|].
  destruct (le x y); [done|]. rewrite IH. apply Permutation_swap.
Qed.

Lemma order_by_perm {A} (le : A -> A -> bool) l : order_by le l ≡ₚ l.
Proof.
  induction l as [|x l IH]; cbn; [done|].
  rewrite insert_sorted_perm. by rewrite IH.
Qed.

Lemma find_path_Some (rows : list db.WorktreeRow) p old :
  find (fun r => bool_decide (db.row_path r = p)) rows = Some old ->
  p ∈ map db.row_path rows.
Proof.
  intros Hf. apply find_some in Hf as [Hin Hp].
  apply bool_decide_eq_true in Hp. fmapify.
  apply list_elem_of_fmap. exists old. split; [done|]. by apply list_elem_of_In.
Qed.

Lemma find_path_None (rows : list db.WorktreeRow) p :
  find (fun r => bool_decide (db.row_path r = p)) rows = None ->
  p ∉ map db.row_path rows.
Proof.
  intros Hf Hin. fmapify. apply list_elem_of_fmap in Hin as (r & -> & Hr).
  apply list_elem_of_In in Hr.
  pose proof (find_none _ _ Hf _ Hr) as E. cbn in E.
  by apply bool_decide_eq_false in E.
Qed.

Lemma on_conflict_path wt r : db.row_path (db.on_conflict wt r) = db.row_path r.
Proof. unfold db.on_conflict. by case_decide. Qed.

Lemma on_conflict_id wt r : db.row_id (db.on_conflict wt r) = db.row_id r.
Proof. unfold db.on_conflict. by case_decide. Qed.

Lemma map_on_conflict_paths wt rows :
  map db.row_path (map (db.on_conflict wt) rows) = map db.row_path rows.
Proof. rewrite map_map. apply map_ext. intros. apply on_conflict_path. Qed.

Lemma map_on_conflict_ids wt rows :
  map db.row_id (map (db.on_conflict wt) rows) = map db.row_id rows.
Proof. rewrite map_map. apply map_ext. intros. apply on_conflict_id. Qed.

(** The two outcomes of a successful upsert. *)
Lemma UpsertWorktree_Ok t d wt d' w' :
  db.UpsertWorktree t d wt = Ok (d', w') ->
  db.repos d' = db.repos d
  /\ db.wt_RepoID wt ∈ map db.repo_ID (db.repos d)
  /\ ((db.wt_Path wt ∈ map db.row_path (db.worktrees d)
       /\ db.worktrees d' = map (db.on_conflict wt) (db.worktrees d))
      \/ (~ db.wt_Path wt ∈ map db.row_path (db.worktrees d)
          /\ db.worktrees d' = db.worktrees d ++ [db.inserted t (db.worktrees d) wt])).
Proof.
  unfold db.UpsertWorktree. case_decide as Hfk; [|done].
  destruct (find _ _) as [old|] eqn:Hf; intros ?; simplify_eq; cbn.
  - split; [done|]. split; [done|]. left. split; [|done]. by eapply find_path_Some.
  - split; [done|]. split; [done|]. right. split; [|done]. by apply find_path_None.
Qed.

Lemma UpsertWorktree_existing t d wt :
  db.wt_RepoID wt ∈ map db.repo_ID (db.repos d) ->
  db.wt_Path wt ∈ map db.row_path (db.worktrees d) ->
  exists w', (db.UpsertWorktree t d wt
              = Ok ({| db.repos := db.repos d;
                       db.worktrees := map (db.on_conflict wt) (db.worktrees d) |}, w')).
Proof.
  intros Hfk Hp. unfold db.UpsertWorktree. rewrite decide_True by done.
  destruct (find _ _) as [old|] eqn:Hf; [by eexists|].
  by apply find_path_None in Hf.
Qed.

(** After an upsert, a row with the upserted path carries the upserted
    fields and no tombstone. *)
Lemma UpsertWorktree_row t d wt d' w' r :
  db.UpsertWorktree t d wt = Ok (d', w') ->
  r ∈ db.worktrees d' -> db.row_path r = db.wt_Path wt ->
  db.row_repo_id r = db.wt_RepoID wt /\ db.row_branch r = db.wt_Branch wt
  /\ db.row_is_main r = db.wt_IsMain wt /\ db.row_deleted_at r = None.
Proof.
  intros HU Hr Hp. apply UpsertWorktree_Ok in HU as (_ & _ & [[_ E]|[Hnew E]]);
    rewrite E in Hr.
  - fmapify. apply list_elem_of_fmap in Hr as (r0 & -> & _).
    rewrite on_conflict_path in Hp. unfold db.on_conflict. by rewrite decide_True.
  - apply elem_of_app in Hr as [Hr|Hr].
    + exfalso. apply Hnew. fmapify. apply list_elem_of_fmap. by exists r.
    + by apply list_elem_of_singleton in Hr as ->.
Qed.

Lemma UpsertWorktree_path_in t d wt d' w' :
  db.UpsertWorktree t d wt = Ok (d', w') ->
  forall p, p ∈ map db.row_path (db.worktrees d') <->
            p = db.wt_Path wt \/ p ∈ map db.row_path (db.worktrees d).
Proof.
  intros HU p. apply UpsertWorktree_Ok in HU as (_ & _ & [[Hold E]|[Hnew E]]); rewrite E.
  - rewrite map_on_conflict_paths. split; [by right|]. by intros [-> | ?].
  - rewrite map_app. cbn. rewrite elem_of_app, list_elem_of_singleton. tauto.
Qed.

(** Rows with another path are neither changed, nor added, nor lost. *)
Lemma UpsertWorktree_other t d wt d' w' r :
  db.UpsertWorktree t d wt = Ok (d', w') ->
  db.row_path r <> db.wt_Path wt ->
  r ∈ db.worktrees d' <-> r ∈ db.worktrees d.
Proof.
  intros HU Hp. apply UpsertWorktree_Ok in HU as (_ & _ & [[_ E]|[_ E]]); rewrite E.
  - fmapify. rewrite list_elem_of_fmap. split.
    + intros (r0 & -> & Hr0). unfold db.on_conflict in *.
      case_decide; [|done]. exfalso. by apply Hp.
    + intros Hr. exists r. split; [|done]. unfold db.on_conflict. by rewrite decide_False.
  - rewrite elem_of_app, list_elem_of_singleton. split; [|tauto].
    intros [Hr| ->]; [done|]. by exfalso.
Qed.

Lemma last_listed_Some p L g :
  last_listed p L = Some g -> g ∈ L /\ git.gwt_Path g = p.
Proof.
  induction L as [|g0 rest IH]; cbn; [done|].
  destruct (last_listed p rest) as [g'|].
  - intros ?; simplify_eq. destruct IH as [? ?]; [done|]. split; [by right|done].
  - case_decide; [|done]. intros ?; simplify_eq. split; [by left|done].
Qed.

Lemma last_listed_None p L :
  last_listed p L = None <-> ~ p ∈ map git.gwt_Path L.
Proof.
  induction L as [|g0 rest IH]; cbn.
  - split; [|done]. intros _ Hin. by apply elem_of_nil in Hin.
  - rewrite elem_of_cons. destruct (last_listed p rest) as [g'|].
    + split; [done|]. intros Hn. exfalso. apply Hn. right.
      destruct (decide (p ∈ map git.gwt_Path rest)); [done|]. by apply IH in n.
    + case_decide as Hp; split; try done.
      * intros Hn. exfalso. apply Hn. by left.
      * intros _ [E|Hin]; [by apply Hp|]. by apply IH in Hin.
Qed.

Lemma upsert_all_repos t repo L d d' :
  upsert_all t repo L d = Ok d' -> db.repos d' = db.repos d.
Proof.
  revert d. induction L as [|g rest IH]; intros d; cbn; [by intros; simplify_eq|].
  destruct (db.UpsertWorktree _ _ _) as [[d1 w1]|e] eqn:HU; [|done].
  intros Hall. apply UpsertWorktree_Ok in HU as (E & _). rewrite <- E. by apply IH.
Qed.

Lemma upsert_all_paths t repo L d d' :
  upsert_all t repo L d = Ok d' ->
  forall p, p ∈ map db.row_path (db.worktrees d') <->
            p ∈ map git.gwt_Path L \/ p ∈ map db.row_path (db.worktrees d).
Proof.
  revert d. induction L as [|g rest IH]; intros d; cbn.
  - intros ? p; simplify_eq. split; [by right|]. intros [Hin|]; [|done].
    by apply elem_of_nil in Hin.
  - destruct (db.UpsertWorktree _ _ _) as [[d1 w1]|e] eqn:HU; [|done].
    intros Hall p. rewrite (IH _ Hall p), (UpsertWorktree_path_in _ _ _ _ _ HU p).
    rewrite elem_of_cons. cbn. tauto.
Qed.

(** Rows whose path is not listed pass through the upserts unchanged, and
    no such row is added. *)
Lemma upsert_all_other t repo L d d' r :
  upsert_all t repo L d = Ok d' ->
  ~ db.row_path r ∈ map git.gwt_Path L ->
  r ∈ db.worktrees d' <-> r ∈ db.worktrees d.
Proof.
  revert d. induction L as [|g rest IH]; intros d; cbn.
  - by intros ? _; simplify_eq.
  - destruct (db.UpsertWorktree _ _ _) as [[d1 w1]|e] eqn:HU; [|done].
    intros Hall Hp. rewrite elem_of_cons in Hp.
    rewrite (IH _ Hall) by tauto.
    apply (UpsertWorktree_other _ _ _ _ _ _ HU). cbn. intros E. apply Hp. by left.
Qed.

(** After the upserts every row with a listed path mirrors the entry that
    decides it. *)
Lemma upsert_all_mirrors t repo L d d' r g :
  upsert_all t repo L d = Ok d' ->
  r ∈ db.worktrees d' -> last_listed (db.row_path r) L = Some g ->
  mirrors repo g r.
Proof.
  revert d. induction L as [|g0 rest IH]; intros d; cbn; [done|].
  destruct (db.UpsertWorktree _ _ _) as [[d1 w1]|e] eqn:HU; [|done].
  intros Hall Hr Hlast.
  destruct (last_listed (db.row_path r) rest) as [g'|] eqn:Hrest.
  - simplify_eq. by eapply IH.
  - case_decide as Hp; [|done]. simplify_eq.
    apply last_listed_None in Hrest.
    apply (upsert_all_other _ _ _ _ _ _ Hall Hrest) in Hr.
    by apply (UpsertWorktree_row _ _ _ _ _ _ HU Hr).
Qed.

Lemma reconciled_path repo L r : db.row_path (reconciled repo L r) = db.row_path r.
Proof. unfold reconciled. by destruct (last_listed _ _). Qed.

Lemma reconciled_cons repo g0 rest r :
  reconciled repo rest (db.on_conflict (cmd.observed repo g0) r)
  = reconciled repo (g0 :: rest) r.
Proof.
  unfold reconciled. rewrite on_conflict_path. cbn.
  destruct (last_listed (db.row_path r) rest) as [g'|].
  - unfold db.on_conflict. by case_decide.
  - unfold db.on_conflict. cbn. by repeat case_decide.
Qed.

(** When every listed path already has a row, the upserts insert nothing:
    they rewrite the rows in place. *)
Lemma upsert_all_existing t repo L d :
  db.repo_ID repo ∈ map db.repo_ID (db.repos d) ->
  (forall p, p ∈ map git.gwt_Path L -> p ∈ map db.row_path (db.worktrees d)) ->
  upsert_all t repo L d
  = Ok {| db.repos := db.repos d;
          db.worktrees := map (reconciled repo L) (db.worktrees d) |}.
Proof.
  revert d. induction L as [|g0 rest IH]; intros d Hfk Hin; cbn.
  - destruct d as [rs ws]. cbn. f_equal. f_equal. symmetry. apply map_id.
  - destruct (UpsertWorktree_existing t d (cmd.observed repo g0)) as [w' ->].
    + done.
    + apply Hin. cbn. by left.
    + rewrite IH; cbn.
      * f_equal. f_equal. rewrite map_map. apply map_ext. intros r.
        apply reconciled_cons.
      * done.
      * intros p Hp. rewrite map_on_conflict_paths. apply Hin. cbn. by right.
Qed.

Lemma mirrors_reconciled repo L r :
  (forall g, last_listed (db.row_path r) L = Some g -> mirrors repo g r) ->
  reconciled repo L r = r.
Proof.
  unfold reconciled. destruct (last_listed _ _) as [g|]; [|done].
  intros Hm. destruct (Hm g eq_refl) as (E1 & E2 & E3 & E4).
  destruct r. cbn in *. unfold db.conflict_update. cbn. by subst.
Qed.

(** The statements of [SoftDeleteMissingWorktrees] as one map. *)
Lemma SoftDeleteMissingWorktrees_rows t d repoID paths :
  db.SoftDeleteMissingWorktrees t d repoID paths
  = Ok {| db.repos := db.repos d;
          db.worktrees := map (tombstone_missing t repoID paths) (db.worktrees d) |}.
Proof.
  unfold db.SoftDeleteMissingWorktrees, tombstone_missing. case_decide as Hlen; [|done].
  apply len_zero_nil in Hlen. subst paths. f_equal. f_equal.
  apply map_ext. intros r.
  destruct (decide _) as [Ha|Ha]; destruct (decide _) as [Hb|Hb]; try done; exfalso.
  - apply Hb. destruct Ha. repeat split; try done. apply not_elem_of_nil.
  - apply Ha. tauto.
Qed.

Lemma tombstone_missing_path t id paths r :
  db.row_path (tombstone_missing t id paths r) = db.row_path r.
Proof. unfold tombstone_missing. by case_decide. Qed.

Lemma tombstone_missing_id t id paths r :
  db.row_id (tombstone_missing t id paths r) = db.row_id r.
Proof. unfold tombstone_missing. by case_decide. Qed.

Lemma tombstone_missing_twice t t' id paths r :
  tombstone_missing t' id paths (tombstone_missing t id paths r)
  = tombstone_missing t id paths r.
Proof.
  unfold tombstone_missing.
  destruct (decide (db.row_repo_id r = id /\ db.row_deleted_at r = None
                    /\ ~ db.row_path r ∈ paths)) as [Ha|Ha].
  - rewrite decide_False; [done|]. cbn. by intros (_ & ? & _).
  - by rewrite decide_False.
Qed.

Lemma sync_tables_Ok t repo L d d' :
  sync_tables t repo L d = Ok d' ->
  exists d1, upsert_all t repo L d = Ok d1
             /\ db.repos d' = db.repos d
             /\ db.worktrees d'
                = map (tombstone_missing t (db.repo_ID repo) (map git.gwt_Path L))
                      (db.worktrees d1).
Proof.
  unfold sync_tables. destruct (upsert_all t repo L d) as [d1|e] eqn:Hall; [|done].
  rewrite SoftDeleteMissingWorktrees_rows. intros ?; simplify_eq. exists d1. cbn.
  split; [done|]. split; [|done]. by eapply upsert_all_repos.
Qed.

(** Fresh rowids: the keys stay unique. *)
Lemma next_rowid_fresh ids : ~ db.next_rowid ids ∈ ids.
Proof.
  assert (Hmax : forall x, x ∈ ids -> x <= foldr Z.max 0 ids).
  { induction ids as [|y ids IH]; intros x Hx; [by apply elem_of_nil in Hx|].
    cbn. apply elem_of_cons in Hx as [->|Hx]; [lia|]. specialize (IH _ Hx). lia. }
  intros Hin. apply Hmax in Hin. unfold db.next_rowid in Hin. lia.
Qed.

Lemma UpsertWorktree_keys t d wt d' w' :
  db.UpsertWorktree t d wt = Ok (d', w') ->
  Catalog.keys_unique d -> Catalog.keys_unique d'.
Proof.
  intros HU [Hid Hpath]. unfold Catalog.keys_unique.
  apply UpsertWorktree_Ok in HU as (_ & _ & [[_ E]|[Hnew E]]); rewrite E.
  - by rewrite map_on_conflict_ids, map_on_conflict_paths.
  - rewrite !map_app. cbn. split.
    + apply NoDup_app. split; [done|]. split; [|apply NoDup_singleton].
      intros x Hx ->%list_elem_of_singleton. by apply next_rowid_fresh in Hx.
    + apply NoDup_app. split; [done|]. split; [|apply NoDup_singleton].
      by intros x Hx ->%list_elem_of_singleton.
Qed.

Lemma sync_tables_keys t repo L d d' :
  sync_tables t repo L d = Ok d' ->
  Catalog.keys_unique d -> Catalog.keys_unique d'.
Proof.
  intros Hs Hk. apply sync_tables_Ok in Hs as (d1 & Hall & _ & E).
  assert (Hk1 : Catalog.keys_unique d1).
  { clear E. revert d Hall Hk. induction L as [|g rest IH]; intros d; cbn.
    - by intros ?; simplify_eq.
    - destruct (db.UpsertWorktree _ _ _) as [[d0 w0]|e] eqn:HU; [|done].
      intros Hall Hk. eapply IH; [done|]. by eapply UpsertWorktree_keys. }
  destruct Hk1 as [Hid Hpath]. unfold Catalog.keys_unique. rewrite E, !map_map.
  split.
  - erewrite map_ext; [exact Hid|]. intros; apply tombstone_missing_id.
  - erewrite map_ext; [exact Hpath|]. intros; apply tombstone_missing_path.
Qed.

End Tables.

(** ** Convergence and idempotence of [syncWorktrees] *)

Section Convergence.
Context `{System}.

(** A successful [syncWorktrees] is a successful [sync_tables]. *)
Lemma syncWorktrees_Ok repo L (s s' : State) :
  git_ListWorktrees (st_world s) (db.repo_Path repo) = Ok L ->
  cmd.syncWorktrees repo s = (Ok tt, s') ->
  sync_tables (current_timestamp (st_world s)) repo L (st_db s) = Ok (st_db s')
  /\ s' = with_db (st_db s') s.
Proof.
  intros HL Hs. rewrite sync_tables_run, HL in Hs.
  destruct (sync_tables _ _ _ _) as [d'|e]; by simplify_eq.
Qed.

Lemma sync_tables_live t repo L d d' p :
  sync_tables t repo L d = Ok d' ->
  p ∈ map db.row_path (Catalog.live_rows d' (db.repo_ID repo)) <-> p ∈ map git.gwt_Path L.
Proof.
  intros Hs. apply sync_tables_Ok in Hs as (d1 & Hall & _ & E).
  unfold Catalog.live_rows. rewrite E.
  change (map db.row_path ?l) with (db.row_path <$> l).
  rewrite list_elem_of_fmap. split.
  - intros (r & -> & Hr). apply list_elem_of_filter in Hr as [[Hrepo Hdel] Hr].
    change (map ?f ?l) with (f <$> l) in Hr.
    apply list_elem_of_fmap in Hr as (r1 & -> & Hr1).
    unfold tombstone_missing in *. case_decide as Hc; [done|].
    destruct (decide (db.row_path r1 ∈ map git.gwt_Path L)); [done|].
    exfalso. by apply Hc.
  - intros Hp.
    assert (Hin : p ∈ map db.row_path (db.worktrees d1))
      by (apply (upsert_all_paths _ _ _ _ _ Hall); by left).
    change (map db.row_path ?l) with (db.row_path <$> l) in Hin.
    apply list_elem_of_fmap in Hin as (r1 & -> & Hr1).
    destruct (last_listed (db.row_path r1) L) as [g|] eqn:Hlast;
      [|by apply last_listed_None in Hlast].
    destruct (upsert_all_mirrors _ _ _ _ _ _ _ Hall Hr1 Hlast) as (Hrepo & _ & _ & Hdel).
    exists r1. split; [done|]. apply list_elem_of_filter. split; [done|].
    change (map ?f ?l) with (f <$> l). apply list_elem_of_fmap. exists r1.
    split; [|done]. unfold tombstone_missing. rewrite decide_False; [done|]. tauto.
Qed.

(** What [ListWorktreesByRepo] returns: the non-deleted rows of the
    repository, as far as the join finds its row in [repos]. *)
Lemma ListWorktreesByRepo_paths d id ws p :
  db.ListWorktreesByRepo d id = Ok ws ->
  p ∈ map db.wt_Path ws <->
  p ∈ map db.row_path (Catalog.live_rows d id) /\ id ∈ map db.repo_ID (db.repos d).
Proof.
  unfold db.ListWorktreesByRepo. intros ?; simplify_eq.
  change (map db.wt_Path ?l) with (db.wt_Path <$> l).
  change (map db.row_path ?l) with (db.row_path <$> l).
  change (map db.repo_ID ?l) with (db.repo_ID <$> l).
  rewrite !list_elem_of_fmap. unfold Catalog.live_rows, db.joined. split.
  - intros (wt & -> & (wr & -> & Hwr)%list_elem_of_fmap).
    rewrite order_by_perm in Hwr.
    apply list_elem_of_filter in Hwr as [[Hrepo Hdel] Hwr].
    apply list_elem_of_omap in Hwr as (w & Hw & Hjoin).
    unfold db.join_repo in Hjoin.
    destruct (find _ _) as [r|] eqn:Hf; simplify_eq/=.
    apply find_some in Hf as [Hin Hid]. apply bool_decide_eq_true in Hid.
    split.
    + exists w. split; [done|]. by apply list_elem_of_filter.
    + exists r. split; [by rewrite Hid|]. by apply list_elem_of_In.
  - intros [(w & -> & Hw) (r0 & Hr0 & Hin)].
    apply list_elem_of_filter in Hw as [[Hrepo Hdel] Hw].
    destruct (find (fun r => bool_decide (db.repo_ID r = db.row_repo_id w)) (db.repos d))
      as [r|] eqn:Hf.
    + exists (db.scan_worktree (w, r)). split; [done|].
      apply list_elem_of_fmap. exists (w, r). split; [done|].
      rewrite order_by_perm. apply list_elem_of_filter. split; [done|].
      apply list_elem_of_omap. exists w. split; [done|].
      unfold db.join_repo. by rewrite Hf.
    + exfalso. apply list_elem_of_In in Hin.
      pose proof (find_none _ _ Hf _ Hin) as E. cbn in E.
      apply bool_decide_eq_false in E. apply E. by rewrite <- Hr0, Hrepo.
Qed.

(** C1.  After a successful [syncWorktrees repo] over the live listing [L],
    the set of paths of the non-deleted catalog rows owned by [repo] is
    exactly the set of paths of [L], and so is the set of paths
    [ListWorktreesByRepo] then returns: every observed path has a row of
    [repo] without tombstone, carrying the branch and main flag of the entry
    that lists it last, and every row of [repo] that was not deleted and
    whose path is not in [L] is tombstoned. *)
Theorem sync_converges (repo : db.Repo) (L : list git.WorktreeInfo) (s s' : State) :
  git_ListWorktrees (st_world s) (db.repo_Path repo) = Ok L ->
  cmd.syncWorktrees repo s = (Ok tt, s') ->
  Catalog.live_paths (st_db s') (db.repo_ID repo) = Catalog.listed_paths L
  /\ (forall ws, db.ListWorktreesByRepo (st_db s') (db.repo_ID repo) = Ok ws ->
        list_to_set (map db.wt_Path ws) = Catalog.listed_paths L)
  /\ (forall g, g ∈ L ->
        exists r g', r ∈ db.worktrees (st_db s')
                     /\ db.row_path r = git.gwt_Path g
                     /\ last_listed (git.gwt_Path g) L = Some g'
                     /\ mirrors repo g' r)
  /\ (forall r, r ∈ db.worktrees (st_db s) ->
        db.row_repo_id r = db.repo_ID repo -> db.row_deleted_at r = None ->
        ~ db.row_path r ∈ map git.gwt_Path L ->
        db.tombstone (current_timestamp (st_world s)) r ∈ db.worktrees (st_db s')).
Proof.
  intros HL Hs. destruct (syncWorktrees_Ok _ _ _ _ HL Hs) as [Ht _].
  split; [|split; [|split]].
  - unfold Catalog.live_paths, Catalog.listed_paths. apply set_eq. intros p.
    rewrite !elem_of_list_to_set. by eapply sync_tables_live.
  - intros ws Hws. unfold Catalog.listed_paths. apply set_eq. intros p.
    rewrite !elem_of_list_to_set, (ListWorktreesByRepo_paths _ _ _ _ Hws).
    rewrite (sync_tables_live _ _ _ _ _ p Ht). split; [tauto|]. intros Hp.
    split; [done|].
    pose proof Ht as Ht0. apply sync_tables_Ok in Ht as (d1 & Hall & -> & _).
    destruct L as [|g0 rest]; [by apply elem_of_nil in Hp|]. cbn in Hall.
    destruct (db.UpsertWorktree _ _ _) as [[d0 w0]|e] eqn:HU; [|done].
    by apply UpsertWorktree_Ok in HU as (_ & Hfk & _).
  - intros g Hg.
    assert (Hp : git.gwt_Path g ∈ map git.gwt_Path L).
    { change (map ?f ?l) with (f <$> l). apply list_elem_of_fmap. by exists g. }
    apply (sync_tables_live _ _ _ _ _ _ Ht) in Hp.
    change (map db.row_path ?l) with (db.row_path <$> l) in Hp.
    apply list_elem_of_fmap in Hp as (r & Hpath & Hr).
    apply list_elem_of_filter in Hr as [[Hrepo Hdel] Hr].
    apply sync_tables_Ok in Ht as (d1 & Hall & _ & E). rewrite E in Hr.
    change (map ?f ?l) with (f <$> l) in Hr.
    apply list_elem_of_fmap in Hr as (r1 & -> & Hr1).
    unfold tombstone_missing in *. case_decide as Hc; [done|].
    destruct (last_listed (git.gwt_Path g) L) as [g'|] eqn:Hlast.
    + exists r1, g'. rewrite E. split.
      * change (map ?f ?l) with (f <$> l). apply list_elem_of_fmap. exists r1.
        split; [|done]. unfold tombstone_missing. by rewrite decide_False.
      * split; [done|]. split; [done|].
        rewrite Hpath in Hlast. by eapply upsert_all_mirrors.
    + apply last_listed_None in Hlast. exfalso. apply Hlast.
      change (map ?f ?l) with (f <$> l). apply list_elem_of_fmap. by exists g.
  - intros r Hr Hrepo Hdel Hp.
    apply sync_tables_Ok in Ht as (d1 & Hall & _ & E). rewrite E.
    apply (upsert_all_other _ _ _ _ _ _ Hall Hp) in Hr.
    change (map ?f ?l) with (f <$> l). apply list_elem_of_fmap. exists r.
    split; [|done]. unfold tombstone_missing. by rewrite decide_True.
Qed.

(** Running the reconciler on its own result, at any time, changes
    nothing. *)
Lemma sync_tables_twice t t' repo L d d' :
  sync_tables t repo L d = Ok d' -> sync_tables t' repo L d' = Ok d'.
Proof.
  intros Hs. pose proof Hs as Hs0.
  apply sync_tables_Ok in Hs as (d1 & Hall & Hrepos & E).
  assert (Hfix : forall r, r ∈ db.worktrees d' -> reconciled repo L r = r).
  { intros r Hr. apply mirrors_reconciled. intros g Hlast.
    rewrite E in Hr. change (map ?f ?l) with (f <$> l) in Hr.
    apply list_elem_of_fmap in Hr as (r1 & -> & Hr1).
    rewrite tombstone_missing_path in Hlast.
    pose proof (last_listed_Some _ _ _ Hlast) as [Hg Hp].
    unfold tombstone_missing. rewrite decide_False.
    - by eapply upsert_all_mirrors.
    - intros (_ & _ & Hn). apply Hn. rewrite <- Hp.
      change (map ?f ?l) with (f <$> l). apply list_elem_of_fmap. by exists g. }
  assert (Hup : upsert_all t' repo L d' = Ok d').
  { destruct L as [|g0 rest]; [done|].
    rewrite upsert_all_existing.
    - destruct d' as [rs ws]. cbn in *. f_equal. f_equal.
      rewrite <- (map_id ws) at 2. apply map_ext_in. intros r Hr.
      apply Hfix. by apply list_elem_of_In.
    - rewrite Hrepos. cbn in Hall.
      destruct (db.UpsertWorktree t d (cmd.observed repo g0)) as [[d0 w0]|e] eqn:HU; [|done].
      by apply UpsertWorktree_Ok in HU as (_ & Hfk & _).
    - intros p Hp.
      pose proof (proj2 (sync_tables_live _ _ _ _ _ p Hs0) Hp) as Hlive.
      change (map db.row_path ?l) with (db.row_path <$> l) in Hlive.
      apply list_elem_of_fmap in Hlive as (r & -> & Hr).
      apply list_elem_of_filter in Hr as [_ Hr].
      change (map ?f ?l) with (f <$> l). apply list_elem_of_fmap. by exists r. }
  unfold sync_tables. rewrite Hup, SoftDeleteMissingWorktrees_rows.
  destruct d' as [rs ws]. cbn in *. f_equal. f_equal.
  rewrite E, map_map. apply map_ext. intros r. apply tombstone_missing_twice.
Qed.

(** C2.  A second [syncWorktrees repo] over an unchanged live listing, in
    whatever state has the catalog of the first run (the clock may have
    moved, other repositories may have changed), succeeds and leaves that
    state exactly as it is: the non-deleted subset is the same, no row the
    first run kept is tombstoned, no row is added, and no timestamp of the
    worktree table is touched.  With the unique keys of the schema the first
    run leaves no duplicate either. *)
Theorem sync_idempotent (repo : db.Repo) (L : list git.WorktreeInfo) (s s1 s2 : State) :
  git_ListWorktrees (st_world s) (db.repo_Path repo) = Ok L ->
  cmd.syncWorktrees repo s = (Ok tt, s1) ->
  st_db s2 = st_db s1 ->
  git_ListWorktrees (st_world s2) (db.repo_Path repo) = Ok L ->
  cmd.syncWorktrees repo s2 = (Ok tt, s2)
  /\ Catalog.live_paths (st_db (cmd.syncWorktrees repo s2).2) (db.repo_ID repo)
     = Catalog.live_paths (st_db s1) (db.repo_ID repo)
  /\ (forall r, r ∈ db.worktrees (st_db s1) ->
        r ∈ db.worktrees (st_db (cmd.syncWorktrees repo s2).2))
  /\ length (db.worktrees (st_db (cmd.syncWorktrees repo s2).2))
     = length (db.worktrees (st_db s1))
  /\ (Catalog.keys_unique (st_db s) -> Catalog.keys_unique (st_db s1)).
Proof.
  intros HL Hs Hdb HL2. destruct (syncWorktrees_Ok _ _ _ _ HL Hs) as [Ht _].
  assert (Hsecond : cmd.syncWorktrees repo s2 = (Ok tt, s2)).
  { rewrite sync_tables_run, HL2, Hdb.
    rewrite (sync_tables_twice _ (current_timestamp (st_world s2)) _ _ _ _ Ht).
    by rewrite <- Hdb, with_db_same. }
  rewrite Hsecond. cbn. rewrite Hdb.
  split; [done|]. split; [done|]. split; [done|]. split; [done|].
  intros Hk. by eapply sync_tables_keys.
Qed.

End Convergence.

(** ** Tombstones *)

Section Tombstones.

Lemma row_by_id (rows : list db.WorktreeRow) r r' :
  NoDup (map db.row_id rows) -> r ∈ rows -> r' ∈ rows ->
  db.row_id r' = db.row_id r -> r' = r.
Proof.
  induction rows as [|x rows IH]; cbn; intros Hnd Hr Hr' Hid.
  - by apply elem_of_nil in Hr.
  - apply NoDup_cons in Hnd as [Hx Hnd].
    assert (Hin : forall y, y ∈ rows -> db.row_id y ∈ map db.row_id rows).
    { intros y Hy. change (map ?f ?l) with (f <$> l). apply list_elem_of_fmap. by exists y. }
    apply elem_of_cons in Hr as [->|Hr]; apply elem_of_cons in Hr' as [->|Hr']; try done.
    + exfalso. apply Hx. rewrite <- Hid. by apply Hin.
    + exfalso. apply Hx. rewrite Hid. by apply Hin.
    + by apply IH.
Qed.

(** A statement that maps every row to a row with the same id and with a
    tombstone wherever there was one keeps the tombstone of [r]. *)
Lemma mapped_keeps_tombstone (f : db.WorktreeRow -> db.WorktreeRow) rows r r' :
  (forall x, db.row_id (f x) = db.row_id x) ->
  (forall x, db.row_deleted_at x <> None -> db.row_deleted_at (f x) <> None) ->
  NoDup (map db.row_id rows) -> r ∈ rows -> db.row_deleted_at r <> None ->
  r' ∈ map f rows -> db.row_id r' = db.row_id r ->
  db.row_deleted_at r' <> None.
Proof.
  intros Hid Hdel Hnd Hr Hrd Hr' E.
  change (map ?f ?l) with (f <$> l) in Hr'.
  apply list_elem_of_fmap in Hr' as (x & -> & Hx).
  rewrite Hid in E. rewrite (row_by_id _ _ _ Hnd Hr Hx E). by apply Hdel.
Qed.

(** The unique keys of the schema are an invariant of the catalog
    operations. *)
Lemma run_keys_unique now op d d' :
  Catalog.run now op d = Ok d' -> Catalog.keys_unique d -> Catalog.keys_unique d'.
Proof.
  intros Hrun Hk.
  assert (Hmap : forall f : db.WorktreeRow -> db.WorktreeRow,
             (forall x, db.row_id (f x) = db.row_id x) ->
             (forall x, db.row_path (f x) = db.row_path x) ->
             db.worktrees d' = map f (db.worktrees d) -> Catalog.keys_unique d').
  { intros f Hid Hpath E. destruct Hk as [Hk1 Hk2]. unfold Catalog.keys_unique.
    rewrite E, !map_map. split.
    - erewrite map_ext; [exact Hk1|]. intros; apply Hid.
    - erewrite map_ext; [exact Hk2|]. intros; apply Hpath. }
  assert (Hsame : db.worktrees d' = db.worktrees d -> Catalog.keys_unique d').
  { intros E. unfold Catalog.keys_unique. by rewrite E. }
  destruct op; cbn in Hrun;
    unfold db.SoftDeleteRepo, db.UpdateLastSynced, db.SoftDeleteWorktree,
      db.SoftDeleteWorktreeByPath in Hrun;
    try (apply Hsame; by simplify_eq).
  - apply Hsame. unfold db.UpsertRepo in Hrun.
    destruct (find _ _); cbn in Hrun; by simplify_eq.
  - destruct (db.UpsertWorktree now d wt) as [[d1 w1]|e] eqn:HU; cbn in Hrun; [|done].
    simplify_eq. by eapply UpsertWorktree_keys.
  - simplify_eq.
    apply (Hmap (fun x => if decide (db.row_id x = id) then db.tombstone now x else x));
      [| |done]; intros x; by case_decide.
  - simplify_eq.
    apply (Hmap (fun x => if decide (db.row_path x = path) then db.tombstone now x else x));
      [| |done]; intros x; by case_decide.
  - rewrite SoftDeleteMissingWorktrees_rows in Hrun. simplify_eq.
    apply (Hmap (tombstone_missing now repoID existingPaths)); [| |done].
    + apply tombstone_missing_id.
    + apply tombstone_missing_path.
Qed.

(** C8.  A tombstoned worktree row stays tombstoned under every catalog
    operation except an upsert of exactly its path: if after an operation
    the row (found by its id) has no deletion timestamp, the operation was
    [UpsertWorktree] with the row's own path; and such an upsert does clear
    it. *)
Theorem tombstone_exclusive (now : Z) (op : Catalog.Op) (d d' : db.DB)
    (r r' : db.WorktreeRow) :
  Catalog.keys_unique d ->
  r ∈ db.worktrees d -> db.row_deleted_at r <> None ->
  Catalog.run now op d = Ok d' ->
  r' ∈ db.worktrees d' -> db.row_id r' = db.row_id r ->
  (db.row_deleted_at r' = None ->
     exists wt, op = Catalog.UpsertWorktree wt /\ db.wt_Path wt = db.row_path r)
  /\ (forall wt, op = Catalog.UpsertWorktree wt -> db.wt_Path wt = db.row_path r ->
        db.row_deleted_at r' = None).
Proof.
  intros [Hnd Hpaths] Hr Hdel Hrun Hr' Hid.
  assert (Hsame : db.worktrees d' = db.worktrees d ->
                  (db.row_deleted_at r' = None ->
                   exists wt, op = Catalog.UpsertWorktree wt /\ db.wt_Path wt = db.row_path r)).
  { intros E Hnone. rewrite E in Hr'.
    rewrite (row_by_id _ _ _ Hnd Hr Hr' Hid) in Hnone. done. }
  assert (Hmap : forall f,
             (forall x, db.row_id (f x) = db.row_id x) ->
             (forall x, db.row_deleted_at x <> None -> db.row_deleted_at (f x) <> None) ->
             db.worktrees d' = map f (db.worktrees d) ->
             (db.row_deleted_at r' = None ->
              exists wt, op = Catalog.UpsertWorktree wt /\ db.wt_Path wt = db.row_path r)).
  { intros f Hf1 Hf2 E Hnone. rewrite E in Hr'. exfalso.
    by apply (mapped_keeps_tombstone f _ r r' Hf1 Hf2 Hnd Hr Hdel Hr' Hid). }
  destruct op; cbn in Hrun;
    unfold db.SoftDeleteRepo, db.UpdateLastSynced, db.SoftDeleteWorktree,
      db.SoftDeleteWorktreeByPath in Hrun.
  - (* UpsertRepo *)
    split; [|done]. apply Hsame. unfold db.UpsertRepo in Hrun.
    destruct (find _ _); cbn in Hrun; by simplify_eq.
  - split; [|done]. apply Hsame. by simplify_eq.
  - split; [|done]. apply Hsame. by simplify_eq.
  - split; [|done]. apply Hsame. by simplify_eq.
  - split; [|done]. apply Hsame. by simplify_eq.
  - split; [|done]. apply Hsame. by simplify_eq.
  - (* UpsertWorktree *)
    destruct (db.UpsertWorktree now d wt) as [[d1 w1]|e] eqn:HU; cbn in Hrun; [|done].
    simplify_eq.
    apply UpsertWorktree_Ok in HU as (_ & _ & [[_ E]|[Hnew E]]); rewrite E in Hr'.
    + change (map ?f ?l) with (f <$> l) in Hr'.
      apply list_elem_of_fmap in Hr' as (x & -> & Hx).
      rewrite on_conflict_id in Hid. rewrite (row_by_id _ _ _ Hnd Hr Hx Hid).
      unfold db.on_conflict. case_decide as Hp.
      * split; [|done]. intros _. by exists wt.
      * split; [done|]. intros wt' ? Hp'. by simplify_eq.
    + apply elem_of_app in Hr' as [Hr'|Hr'].
      * rewrite (row_by_id _ _ _ Hnd Hr Hr' Hid). split; [done|].
        intros wt' ? Hp'. simplify_eq. exfalso. apply Hnew. rewrite Hp'.
        change (map ?f ?l) with (f <$> l). apply list_elem_of_fmap. by exists r.
      * apply list_elem_of_singleton in Hr' as ->. cbn in Hid. exfalso.
        apply (next_rowid_fresh (map db.row_id (db.worktrees d))). rewrite Hid.
        change (map ?f ?l) with (f <$> l). apply list_elem_of_fmap. by exists r.
  - split; [|done]. apply Hsame. by simplify_eq.
  - split; [|done]. apply Hsame. by simplify_eq.
  - split; [|done]. apply Hsame. by simplify_eq.
  - split; [|done]. apply Hsame. by simplify_eq.
  - (* SoftDeleteWorktree *)
    split; [|done]. simplify_eq.
    apply (Hmap (fun x => if decide (db.row_id x = id) then db.tombstone now x else x));
      [| |done].
    + intros x. by case_decide.
    + intros x Hx. by case_decide.
  - split; [|done]. simplify_eq.
    apply (Hmap (fun x => if decide (db.row_path x = path) then db.tombstone now x else x));
      [| |done].
    + intros x. by case_decide.
    + intros x Hx. by case_decide.
  - split; [|done]. rewrite SoftDeleteMissingWorktrees_rows in Hrun. simplify_eq.
    apply (Hmap (tombstone_missing now repoID existingPaths)); [| |done].
    + intros x. apply tombstone_missing_id.
    + intros x Hx. unfold tombstone_missing. by case_decide.
Qed.

End Tombstones.

(** ** [syncAllRepos] *)

Section SyncAll.
Context `{System}.

Lemma forEach_foldl {A} (body : A -> M unit) (l : list A) (s : State) :
  cmd.forEach body l s = (tt, foldl (fun s x => (body x s).2) s l).
Proof.
  revert s. induction l as [|x l IH]; intros s; cbn; [done|].
  unfold bind. destruct (body x s) as [[] s1]. cbn. apply IH.
Qed.

(** What [syncWorktrees] leaves alone, also when it fails half way. *)
Lemma upsertEach_frame repo L acc (s : State) :
  let s' := (cmd.upsertEach repo L acc s).2 in
  st_world s' = st_world s /\ db.repos (st_db s') = db.repos (st_db s)
  /\ st_keys s' = st_keys s /\ st_stdin s' = st_stdin s /\ st_out s' = st_out s.
Proof.
  revert acc s. induction L as [|g rest IH]; intros acc s; cbn; [done|].
  unfold bind. rewrite exec_db_run.
  destruct (db.UpsertWorktree _ _ _) as [[d1 w1]|e] eqn:HU; cbn; [|done].
  destruct (IH (acc ++ [git.gwt_Path g]) (with_db d1 s)) as (E1 & E2 & E3 & E4 & E5).
  cbn in *. rewrite E1, E2, E3, E4, E5.
  by apply UpsertWorktree_Ok in HU as (-> & _).
Qed.

Lemma syncWorktrees_frame repo (s : State) :
  let s' := (cmd.syncWorktrees repo s).2 in
  st_world s' = st_world s /\ db.repos (st_db s') = db.repos (st_db s)
  /\ st_keys s' = st_keys s /\ st_stdin s' = st_stdin s /\ st_out s' = st_out s.
Proof.
  unfold cmd.syncWorktrees, bind, get_world. cbn.
  destruct (git_ListWorktrees _ _) as [L|e]; [|done].
  pose proof (upsertEach_frame repo L [] s) as HF.
  destruct (cmd.upsertEach repo L [] s) as [[paths|e] s1]; cbn in *; [|done].
  rewrite SoftDeleteMissingWorktrees_rows. cbn. done.
Qed.

(** One turn of the loop, by the outcome of [syncWorktrees]. *)
Lemma syncOne_run repo (s : State) :
  cmd.syncOne repo s =
  match cmd.syncWorktrees repo s with
  | (Err e, s1) =>
      print (Stderr ("warning: failed to sync " +:+ db.repo_Name repo +:+ ": " +:+ e +:+ nl)) s1
  | (Ok _, s1) =>
      (tt, with_db {| db.repos :=
                        map (fun r => if decide (db.repo_ID r = db.repo_ID repo)
                                      then {| db.repo_ID := db.repo_ID r;
                                              db.repo_Path := db.repo_Path r;
                                              db.repo_Name := db.repo_Name r;
                                              db.repo_WorktreesDir := db.repo_WorktreesDir r;
                                              db.repo_LastSyncedAt :=
                                                Some (current_timestamp (st_world s));
                                              db.repo_CreatedAt := db.repo_CreatedAt r;
                                              db.repo_DeletedAt := db.repo_DeletedAt r |}
                                      else r) (db.repos (st_db s1));
                      db.worktrees := db.worktrees (st_db s1) |} s1)
  end.
Proof.
  unfold cmd.syncOne, bind.
  pose proof (syncWorktrees_frame repo s) as (Hw & _).
  destruct (cmd.syncWorktrees repo s) as [[u|e] s1]; [|done].
  rewrite exec_db_run. cbn in *. by rewrite Hw.
Qed.

Lemma syncOne_world repo (s : State) : st_world (cmd.syncOne repo s).2 = st_world s.
Proof.
  rewrite syncOne_run. pose proof (syncWorktrees_frame repo s) as (Hw & _).
  by destruct (cmd.syncWorktrees repo s) as [[u|e] s1].
Qed.

Lemma syncAll_world (l : list db.Repo) (s : State) :
  st_world (foldl (fun s r => (cmd.syncOne r s).2) s l) = st_world s.
Proof.
  revert s. induction l as [|r l IH]; intros s; cbn; [done|].
  by rewrite IH, syncOne_world.
Qed.

(** A last-synced timestamp set at the time of the pass survives the rest
    of the pass. *)
Lemma syncOne_keeps_synced repo id (s : State) :
  (forall row, row ∈ db.repos (st_db s) -> db.repo_ID row = id ->
     db.repo_LastSyncedAt row = Some (current_timestamp (st_world s))) ->
  forall row, row ∈ db.repos (st_db (cmd.syncOne repo s).2) -> db.repo_ID row = id ->
    db.repo_LastSyncedAt row = Some (current_timestamp (st_world s)).
Proof.
  intros Hs row. rewrite syncOne_run.
  pose proof (syncWorktrees_frame repo s) as (_ & Hrepos & _).
  destruct (cmd.syncWorktrees repo s) as [[u|e] s1]; cbn in *; rewrite Hrepos.
  - change (map ?f ?l) with (f <$> l). intros (row0 & -> & Hrow0)%list_elem_of_fmap.
    case_decide; cbn; [done|]. by apply Hs.
  - apply Hs.
Qed.

Lemma syncAll_keeps_synced (l : list db.Repo) id (s : State) :
  (forall row, row ∈ db.repos (st_db s) -> db.repo_ID row = id ->
     db.repo_LastSyncedAt row = Some (current_timestamp (st_world s))) ->
  forall row, row ∈ db.repos (st_db (foldl (fun s r => (cmd.syncOne r s).2) s l)) ->
    db.repo_ID row = id ->
    db.repo_LastSyncedAt row = Some (current_timestamp (st_world s)).
Proof.
  revert s. induction l as [|r l IH]; intros s Hs; cbn; [done|].
  rewrite <- (syncOne_world r s). apply IH. rewrite syncOne_world.
  by apply syncOne_keeps_synced.
Qed.

(** C7.  [syncAllRepos] takes the non-deleted repositories of the catalog
    in turn (in [ListRepos] order) and never returns an error.  At each
    repository's turn [syncWorktrees] runs in the state its predecessors
    left, whether or not any of them failed; a failure prints a warning and
    the pass goes on with the remaining repositories; after a success every
    row of that repository has its last-synced timestamp set to the time of
    the pass, and still has it when the pass ends. *)
Theorem syncAll_best_effort (s : State) (repos : list db.Repo) :
  db.ListRepos (st_db s) = Ok repos ->
  let turn := fun (s : State) r => (cmd.syncOne r s).2 in
  (forall r, r ∈ repos <-> r ∈ db.repos (st_db s) /\ db.repo_DeletedAt r = None)
  /\ cmd.syncAllRepos s = (Ok tt, foldl turn s repos)
  /\ forall pre r post, repos = pre ++ r :: post ->
       let before := foldl turn s pre in
       let final := (cmd.syncAllRepos s).2 in
       final = foldl turn (turn before r) post
       /\ (forall e s1, cmd.syncWorktrees r before = (Err e, s1) ->
             turn before r
             = (print (Stderr ("warning: failed to sync " +:+ db.repo_Name r +:+ ": "
                               +:+ e +:+ nl)) s1).2)
       /\ (forall s1, cmd.syncWorktrees r before = (Ok tt, s1) ->
             forall row, row ∈ db.repos (st_db final) -> db.repo_ID row = db.repo_ID r ->
               db.repo_LastSyncedAt row = Some (current_timestamp (st_world s))).
Proof.
  intros HL turn. unfold db.ListRepos in HL. simplify_eq.
  set (repos := order_by _ _).
  assert (Hall : cmd.syncAllRepos s = (Ok tt, foldl turn s repos)).
  { unfold cmd.syncAllRepos, bind, get_db, ret. cbn. fold repos.
    by rewrite forEach_foldl. }
  split; [|split; [exact Hall|]].
  - intros r. unfold repos. rewrite order_by_perm, list_elem_of_filter. tauto.
  - intros pre r post E before final.
    assert (Hfinal : final = foldl turn (turn before r) post).
    { unfold final. rewrite Hall, E, foldl_app. done. }
    split; [exact Hfinal|]. split.
    + intros e s1 Hs. unfold turn at 1. by rewrite syncOne_run, Hs.
    + intros s1 Hs row. rewrite Hfinal.
      assert (Hw : st_world before = st_world s) by apply syncAll_world.
      assert (Hw' : st_world (turn before r) = st_world s)
        by (unfold turn at 1; by rewrite syncOne_world).
      rewrite <- Hw'. apply syncAll_keeps_synced. rewrite Hw'.
      unfold turn. rewrite syncOne_run, Hs. cbn.
      pose proof (syncWorktrees_frame r before) as (_ & Hrepos & _).
      rewrite Hs in Hrepos. cbn in Hrepos.
      change (map ?f ?l) with (f <$> l). intros row' (row0 & -> & Hrow0)%list_elem_of_fmap.
      case_decide; cbn; [by rewrite Hw|done].
Qed.

End SyncAll.

(** ** Paths *)

Section Paths.

Lemma chars_app (a b : string) : chars (a +:+ b) = chars a ++ chars b.
Proof.
  unfold chars. induction a as [|x a IH]; [reflexivity|].
  change (x :: list_ascii_of_string (a +:+ b)
          = x :: (list_ascii_of_string a ++ list_ascii_of_string b)). by rewrite IH.
Qed.

Lemma split_slash_nonempty s : strings.split_slash s <> [].
Proof.
  destruct s as [|c s]; cbn; [done|].
  case_decide; [done|]. by destruct (strings.split_slash s).
Qed.

Lemma split_slash_app (a b : string) :
  strings.split_slash (a +:+ "/" +:+ b) = strings.split_slash a ++ strings.split_slash b.
Proof.
  induction a as [|c a IH].
  - change ("" +:+ "/" +:+ b) with (String "/" b).
    cbn [strings.split_slash]. by rewrite decide_True.
  - change (String c a +:+ "/" +:+ b) with (String c (a +:+ "/" +:+ b)).
    cbn [strings.split_slash]. rewrite IH. case_decide; [done|].
    pose proof (split_slash_nonempty a).
    by destruct (strings.split_slash a).
Qed.

Lemma split_slash_free s : slash_free s -> strings.split_slash s = [s].
Proof.
  unfold slash_free, chars. induction s as [|c s IH]; intros Hs; cbn; [done|].
  cbn in Hs. rewrite not_elem_of_cons in Hs. destruct Hs as [Hc Hs].
  rewrite decide_False by done. by rewrite IH.
Qed.

Lemma split_slash_elements s : Forall slash_free (strings.split_slash s).
Proof.
  induction s as [|c s IH]; cbn.
  - apply Forall_singleton. unfold slash_free. cbn. apply not_elem_of_nil.
  - case_decide as Hc.
    + apply Forall_cons. split; [|done]. unfold slash_free. cbn. apply not_elem_of_nil.
    + pose proof (split_slash_nonempty s) as Hne.
      destruct (strings.split_slash s) as [|x xs]; [done|].
      apply Forall_cons in IH as [Hx Hxs]. apply Forall_cons. split; [|done].
      unfold slash_free, chars in *. cbn. rewrite not_elem_of_cons. split; [|done].
      intros E. by apply Hc.
Qed.

Lemma Join_snoc l n :
  l <> [] -> strings.Join (l ++ [n]) "/" = strings.Join l "/" +:+ "/" +:+ n.
Proof.
  induction l as [|x l IH]; [done|]. intros _.
  destruct l as [|y l]; [done|].
  change (strings.Join ((x :: y :: l) ++ [n]) "/")
    with (x +:+ "/" +:+ strings.Join ((y :: l) ++ [n]) "/").
  rewrite IH by done.
  change (strings.Join (x :: y :: l) "/") with (x +:+ "/" +:+ strings.Join (y :: l) "/").
  by rewrite !string_app_assoc.
Qed.

Lemma split_Join l :
  l <> [] -> Forall slash_free l -> strings.split_slash (strings.Join l "/") = l.
Proof.
  induction l as [|x l IH]; [done|]. intros _ [Hx Hl]%Forall_cons.
  destruct l as [|y l]; [by apply split_slash_free|].
  change (strings.Join (x :: y :: l) "/") with (x +:+ "/" +:+ strings.Join (y :: l) "/").
  rewrite split_slash_app, IH by done. by rewrite split_slash_free.
Qed.

Lemma clean_stack_elements r st : clean_stack r st -> Forall element_ok st.
Proof.
  induction st as [|x st IH]; cbn; [done|].
  intros (Hx & Hst & _). apply Forall_cons. auto.
Qed.

(** Cleaning the elements of a clean stack, bottom first, rebuilds it. *)
Lemma clean_rev r st :
  clean_stack r st -> foldl (filepath.clean_element r) [] (rev st) = st.
Proof.
  induction st as [|x st IH]; [done|]. cbn [rev clean_stack].
  intros ((Hne & Hdot & Hfree) & Hst & Htop).
  rewrite foldl_app. cbn. rewrite (IH Hst).
  unfold filepath.clean_element.
  rewrite decide_False by (intros [|]; done).
  case_decide as Hdd; [|done].
  destruct (Htop Hdd) as [-> Hbelow].
  destruct st as [|y st]; [done|]. by rewrite decide_True.
Qed.

(** Cleaning keeps stacks clean. *)
Lemma clean_element_stack r st e :
  slash_free e -> clean_stack r st -> clean_stack r (filepath.clean_element r st e).
Proof.
  intros He Hst. unfold filepath.clean_element.
  case_decide as H1; [done|].
  assert (Hok : element_ok e) by (unfold element_ok; tauto).
  case_decide as H2.
  - destruct st as [|top rest].
    + destruct r; [done|]. cbn. done.
    + case_decide as H3.
      * cbn [clean_stack]. split; [done|]. split; [done|]. intros _.
        cbn in Hst. destruct Hst as (_ & _ & Htop). destruct (Htop H3) as [Hr _]. done.
      * cbn in Hst. tauto.
  - cbn [clean_stack]. split; [done|]. split; [done|]. done.
Qed.

Lemma clean_elements_stack r st l :
  Forall slash_free l -> clean_stack r st ->
  clean_stack r (foldl (filepath.clean_element r) st l).
Proof.
  revert st. induction l as [|e l IH]; intros st Hl Hst; [done|].
  apply Forall_cons in Hl as [He Hl]. cbn. apply IH; [done|].
  by apply clean_element_stack.
Qed.

Lemma element_ok_first x : element_ok x -> String.prefix "/" x = false.
Proof.
  intros (Hne & _ & Hfree). destruct x as [|c x]; [done|]. cbn [String.prefix].
  destruct (ascii_dec "/" c) as [<-|]; [|done].
  exfalso. apply Hfree. unfold chars. cbn. by left.
Qed.

Lemma Join_nonempty l : l <> [] -> Forall element_ok l -> strings.Join l "/" <> "".
Proof.
  destruct l as [|x l]; [done|]. intros _ [(Hx & _) _]%Forall_cons.
  destruct l as [|y l]; [done|].
  change (strings.Join (x :: y :: l) "/") with (x +:+ "/" +:+ strings.Join (y :: l) "/").
  by destruct x.
Qed.

Lemma Join_first l :
  l <> [] -> Forall element_ok l -> String.prefix "/" (strings.Join l "/") = false.
Proof.
  destruct l as [|x l]; [done|]. intros _ [Hx _]%Forall_cons.
  destruct l as [|y l]; [by apply element_ok_first|].
  change (strings.Join (x :: y :: l) "/") with (x +:+ "/" +:+ strings.Join (y :: l) "/").
  pose proof (element_ok_first x Hx) as Hp. destruct Hx as (Hne & _).
  destruct x as [|c x]; [done|].
  change (String c x +:+ ?t) with (String c (x +:+ t)).
  cbn [String.prefix] in *. destruct (ascii_dec "/" c); [|done].
  exfalso. by destruct x.
Qed.

(** A path that is a rendered clean stack with something on it, followed
    by a plain name, is clean as it stands. *)
Lemma Clean_render_name r st n :
  clean_stack r st -> st <> [] -> plain_name n ->
  filepath.Clean (filepath.render r st +:+ "/" +:+ n) = filepath.render r st +:+ "/" +:+ n.
Proof.
  intros Hst Hne [Hn Hndd].
  pose proof (clean_stack_elements _ _ Hst) as Hel.
  assert (Hrev : rev st <> []) by (destruct st; [done|]; cbn; by destruct (rev st)).
  assert (Hrel : Forall element_ok (rev st)) by (by apply Forall_rev).
  assert (Hfree : Forall slash_free (rev st)).
  { eapply Forall_impl; [exact Hrel|]. by intros x (_ & _ & ?). }
  set (J := strings.Join (rev st) "/").
  assert (HJ : J <> "") by (by apply Join_nonempty).
  assert (HJp : String.prefix "/" J = false) by (by apply Join_first).
  assert (Hrender : filepath.render r st = if r then "/" +:+ J else J).
  { unfold filepath.render. fold J. destruct r; [done|]. by rewrite decide_False. }
  assert (Hrooted : String.prefix "/" (filepath.render r st +:+ "/" +:+ n) = r).
  { rewrite Hrender. destruct r.
    - change (("/" +:+ J) +:+ "/" +:+ n) with (String "/" (J +:+ "/" +:+ n)).
      cbn [String.prefix]. destruct (ascii_dec "/" "/"); [|done].
      by destruct (J +:+ "/" +:+ n).
    - destruct J as [|c J']; [done|].
      change (String c J' +:+ "/" +:+ n) with (String c (J' +:+ "/" +:+ n)).
      cbn [String.prefix] in *. destruct (ascii_dec "/" c); [|done].
      exfalso. by destruct J'. }
  assert (Hsplit : foldl (filepath.clean_element r) []
                     (strings.split_slash (filepath.render r st)) = st).
  { rewrite Hrender. destruct r.
    - change ("/" +:+ J) with (String "/" J). cbn [strings.split_slash].
      rewrite decide_True by done. cbn [foldl].
      unfold filepath.clean_element at 2. rewrite decide_True by (by left).
      unfold J. rewrite split_Join by done. by apply clean_rev.
    - unfold J. rewrite split_Join by done. by apply clean_rev. }
  unfold filepath.Clean. rewrite Hrooted.
  rewrite split_slash_app, foldl_app, Hsplit.
  destruct Hn as (Hn1 & Hn2 & Hn3).
  rewrite (split_slash_free n Hn3). cbn [foldl].
  unfold filepath.clean_element. rewrite decide_False by (intros [|]; done).
  rewrite decide_False by done.
  unfold filepath.render. cbn [rev]. rewrite Join_snoc by done. fold J.
  destruct r.
  - by rewrite string_app_assoc.
  - rewrite decide_False; [by rewrite decide_False|].
    destruct J; [done|]. done.
Qed.

Lemma render_nonempty r st : filepath.render r st <> "".
Proof.
  unfold filepath.render. destruct r; [done|]. by case_decide.
Qed.

Lemma Clean_stack path :
  clean_stack (String.prefix "/" path)
    (foldl (filepath.clean_element (String.prefix "/" path)) [] (strings.split_slash path)).
Proof. apply clean_elements_stack; [apply split_slash_elements|done]. Qed.

(** Appending separator-free text to a path extends its last element. *)
Lemma split_slash_suffix s t :
  slash_free t ->
  exists l x, strings.split_slash s = l ++ [x]
              /\ strings.split_slash (s +:+ t) = l ++ [x +:+ t].
Proof.
  intros Ht. induction s as [|c s (l & x & E1 & E2)].
  - exists [], "". split; [done|]. by apply split_slash_free.
  - change (String c s +:+ t) with (String c (s +:+ t)). cbn [strings.split_slash].
    rewrite E1, E2. case_decide.
    + exists ("" :: l), x. done.
    + destruct l as [|y l]; cbn.
      * exists [], (String c x). done.
      * exists (String c y :: l), x. done.
Qed.

Lemma string_length_app (a b : string) :
  String.length (a +:+ b) = (String.length a + String.length b)%nat.
Proof.
  induction a as [|x a IH]; [done|].
  change (S (String.length (a +:+ b)) = S (String.length a + String.length b)).
  by rewrite IH.
Qed.

Lemma worktrees_suffix_plain x : slash_free x -> plain_name (x +:+ ".worktrees").
Proof.
  intros Hx.
  assert (Hlen : (10 <= String.length (x +:+ ".worktrees"))%nat)
    by (rewrite string_length_app; cbn; lia).
  repeat split.
  - intros E. rewrite E in Hlen. cbn in Hlen. lia.
  - intros E. rewrite E in Hlen. cbn in Hlen. lia.
  - unfold slash_free in *. rewrite chars_app, elem_of_app. intros [?|Hin]; [done|].
    revert Hin. unfold chars. cbn. rewrite !elem_of_cons. intros Hin.
    repeat (destruct Hin as [Hin|Hin]; [by inversion Hin|]).
    by apply elem_of_nil in Hin.
  - intros E. rewrite E in Hlen. cbn in Hlen. lia.
Qed.

(** The default worktrees directory is a cleaned path that ends in an
    element of its own. *)
Lemma default_dir_stack repoPath :
  exists r st, git.GetDefaultWorktreesDir repoPath = filepath.render r st
               /\ clean_stack r st /\ st <> [].
Proof.
  unfold git.GetDefaultWorktreesDir, git.GetRepoName. cbn [filepath.Join].
  set (parent := filepath.Dir repoPath).
  set (name := filepath.Base repoPath +:+ ".worktrees").
  assert (Hparent : parent <> "") by apply render_nonempty.
  rewrite decide_False by done.
  change (strings.Join [parent; name] "/") with (parent +:+ "/" +:+ name).
  set (path := parent +:+ "/" +:+ name).
  exists (String.prefix "/" path),
         (foldl (filepath.clean_element (String.prefix "/" path)) []
                (strings.split_slash path)).
  split; [done|]. split; [apply Clean_stack|].
  unfold path at 2. rewrite split_slash_app.
  destruct (split_slash_suffix (filepath.Base repoPath) ".worktrees") as (l & x & E1 & E2).
  { unfold slash_free, chars. cbn. rewrite !not_elem_of_cons.
    repeat split; try done. apply not_elem_of_nil. }
  fold name in E2. rewrite E2, !foldl_app. cbn [foldl].
  assert (Hx : slash_free x).
  { pose proof (split_slash_elements (filepath.Base repoPath)) as Hall.
    rewrite E1 in Hall. apply Forall_app in Hall as [_ Hall].
    by apply Forall_cons in Hall as [Hall _]. }
  destruct (worktrees_suffix_plain x Hx) as ((H1 & H2 & H3) & H4).
  unfold filepath.clean_element at 1.
  rewrite decide_False by (intros [|]; done). by rewrite decide_False.
Qed.

(** Inside the default worktrees directory a plain name joins literally. *)
Lemma Join_default_dir repoPath name :
  plain_name name ->
  filepath.Join [git.GetDefaultWorktreesDir repoPath; name]
  = git.GetDefaultWorktreesDir repoPath +:+ "/" +:+ name.
Proof.
  intros Hname. destruct (default_dir_stack repoPath) as (r & st & -> & Hst & Hne).
  cbn [filepath.Join]. rewrite decide_False by apply render_nonempty.
  change (strings.Join [filepath.render r st; name] "/")
    with (filepath.render r st +:+ "/" +:+ name).
  by apply Clean_render_name.
Qed.

Lemma chars_inj a b : chars a = chars b -> a = b.
Proof.
  unfold chars. intros E.
  by rewrite <- (string_of_list_ascii_of_string a), E, string_of_list_ascii_of_string.
Qed.

(** Replacing "/" by "-" is a bytewise substitution. *)
Lemma ReplaceAll_slash (branch : string) :
  chars (strings.ReplaceAll branch "/" "-")
  = map (fun c => if decide (c = "/"%char) then "-"%char else c) (chars branch).
Proof.
  unfold strings.ReplaceAll, chars.
  induction branch as [|c rest IH]; [done|].
  cbn [strings.replace_from String.prefix list_ascii_of_string map].
  destruct (ascii_dec "/" c) as [<-|Hc].
  - rewrite decide_True by done.
    replace (String.prefix "" rest) with true by (by destruct rest).
    change (list_ascii_of_string (String "-" (strings.replace_from 0 rest "/" "-"))
            = "-"%char :: map (fun c => if decide (c = "/"%char) then "-"%char else c)
                              (list_ascii_of_string rest)).
    cbn [list_ascii_of_string]. by rewrite IH.
  - rewrite decide_False by done. cbn [list_ascii_of_string]. by rewrite IH.
Qed.

(** The directory name of a branch is a plain name, unless the branch is
    empty or a dot name. *)
Lemma dirName_plain branch :
  branch <> "" -> branch <> "." -> branch <> ".." ->
  plain_name (strings.ReplaceAll branch "/" "-").
Proof.
  intros H1 H2 H3. pose proof (ReplaceAll_slash branch) as E.
  set (f := fun c : ascii => if decide (c = "/"%char) then "-"%char else c) in *.
  assert (Hf : forall c, f c = "."%char -> c = "."%char).
  { intros c. unfold f. by case_decide. }
  repeat split.
  - intros E0. rewrite E0 in E. apply H1, chars_inj.
    destruct (chars branch); by simplify_eq/=.
  - intros E0. rewrite E0 in E. apply H2, chars_inj.
    destruct (chars branch) as [|c [|c' l]]; simplify_eq/=.
    f_equal. by apply Hf.
  - unfold slash_free. rewrite E.
    change (map f ?l) with (f <$> l). rewrite list_elem_of_fmap.
    intros (c & Hc & _). unfold f in Hc. by case_decide.
  - intros E0. rewrite E0 in E. apply H3, chars_inj.
    destruct (chars branch) as [|c [|c' [|c'' l]]]; simplify_eq/=.
    f_equal; [|f_equal]; by apply Hf.
Qed.

End Paths.

(** ** Workflows *)

Section Workflows.
Context `{System} `{Widgets}.

(** C10.  With an empty worktree list [PickWorktree] answers at once with
    the Add action and no worktree: no program is run, and the state (the
    pending terminal input included) is untouched. *)
Theorem PickWorktree_empty (s : State) :
  ui.PickWorktree [] s = (Ok {| ui.Action := ui.ActionAdd; ui.Worktree := None |}, s).
Proof. reflexivity. Qed.

(** [Confirm], by what the terminal holds. *)
Lemma Confirm_run message (s : State) :
  ui.Confirm message s =
  let prompted := (print (Stderr (message +:+ " [enter to confirm] ")) s).2 in
  match term_MakeRaw (st_world s) with
  | Err e => (Err e, prompted)
  | Ok _ =>
      match st_stdin s with
      | [] => (Err "EOF", (print (Stderr nl) prompted).2)
      | b :: rest =>
          (Ok (bool_decide (b = "013"%char) || bool_decide (b = "010"%char)),
           (print (Stderr nl) (put_stdin rest prompted).2).2)
      end
  end.
Proof.
  unfold ui.Confirm, bind, get_world, print, put_stdin, ret. cbn.
  destruct (term_MakeRaw (st_world s)); [|done]. cbn.
  by destruct (st_stdin s).
Qed.

(** The answer does not depend on the wording of the prompt, nor does what
    the prompt leaves of the catalog, the world and the input. *)
Lemma Confirm_answer message (s : State) :
  (ui.Confirm message s).1
  = match term_MakeRaw (st_world s) with
    | Err e => Err e
    | Ok _ => match st_stdin s with
              | [] => Err "EOF"
              | b :: _ => Ok (bool_decide (b = "013"%char) || bool_decide (b = "010"%char))
              end
    end
  /\ effects (ui.Confirm message s).2
     = (st_db s, st_world s, st_keys s,
        if is_ok (term_MakeRaw (st_world s)) then tail (st_stdin s) else st_stdin s).
Proof.
  rewrite Confirm_run. cbn.
  destruct (term_MakeRaw (st_world s)); [|done].
  by destruct (st_stdin s).
Qed.

Lemma Confirm_confirms message (s : State) :
  confirms s = true <-> (ui.Confirm message s).1 = Ok true.
Proof.
  destruct (Confirm_answer message s) as [-> _]. unfold confirms.
  destruct (term_MakeRaw (st_world s)); cbn; [|done].
  destruct (st_stdin s) as [|b rest]; [done|].
  destruct (_ || _); split; intros; by simplify_eq.
Qed.

Lemma resolveWorktree_by_path path rest (s : State) :
  (cmd.resolveWorktree (path :: rest) s).2 = s.
Proof.
  unfold cmd.resolveWorktree, bind, get_db. cbn.
  by destruct (find _ _).
Qed.

(** C5.  For a main worktree [w]: Ctrl-D in the selector with [w] under the
    cursor returns the model as it is (its action included), without
    quitting, so the loop goes on with the next message; the inline delete and the Remove workflow on [w]
    return the rejection and leave the whole state (catalog, world, pending
    input, output) as it was: no prompt, no git call, no tombstone.  For
    [runRemove] this is the state its sync phase and the resolution of the
    worktree left. *)
Theorem main_protected (w : db.Worktree) :
  db.wt_IsMain w = true ->
  (forall m, ui.selected m = Some w ->
     ui.Update m (tea.KeyMsg tea.KeyCtrlD) = Some (m, tea.CmdNil)
     /\ forall rest, ui.Run m (tea.KeyMsg tea.KeyCtrlD :: rest) = ui.Run m rest)
  /\ (forall s : State, cmd.deleteWorktree w s = (Err "cannot delete the main worktree", s))
  /\ (forall force (s : State),
        cmd.removeWorktree force w s = (Err "cannot remove the main worktree", s))
  /\ (forall force args (s s1 s2 : State),
        cmd.syncPhase s = (Ok tt, s1) ->
        cmd.resolveWorktree args s1 = (Ok (Some w), s2) ->
        cmd.runRemove force args s = (Err "cannot remove the main worktree", s2)).
Proof.
  intros Hmain. split; [|split; [|split]].
  - intros m Hsel. pose proof (Update_delete_main m w Hsel Hmain) as HU.
    split; [done|]. intros rest. cbn [ui.Run]. by rewrite HU.
  - intros s. unfold cmd.deleteWorktree. by rewrite Hmain.
  - intros force s. unfold cmd.removeWorktree. by rewrite Hmain.
  - intros force args s s1 s2 Hsync Hres.
    unfold cmd.runRemove, bind. rewrite Hsync, Hres.
    unfold cmd.removeWorktree. by rewrite Hmain.
Qed.

(** C3, as the code has it.  The inline delete and the Remove workflow
    (without --force) reject, confirm, remove and tombstone alike, with the
    same outcome and the same effects on catalog, world and input, whenever
    the plain git removal is not reached (main worktree, no confirmation) or
    succeeds.  When the plain removal fails, Remove surfaces the failure with
    the --force hint and changes no catalog row, whereas the inline delete
    goes on to the forced removal: if that succeeds it tombstones the
    worktree and reports success, and only if it fails too is the failure
    surfaced (without hint), the catalog unchanged. *)
Theorem inline_delete_vs_remove (wt : db.Worktree) (s : State) :
  let plain := git_RemoveWorktree (st_world s) (db.wt_RepoPath wt) (db.wt_Path wt) in
  (db.wt_IsMain wt = true \/ confirms s = false \/ is_ok plain.2 = true ->
     is_ok (cmd.deleteWorktree wt s).1 = is_ok (cmd.removeWorktree false wt s).1
     /\ effects (cmd.deleteWorktree wt s).2 = effects (cmd.removeWorktree false wt s).2)
  /\ (db.wt_IsMain wt = false -> confirms s = true ->
      forall e, plain.2 = Err e ->
        let forced := git_RemoveWorktreeForce plain.1 (db.wt_RepoPath wt) (db.wt_Path wt) in
        (cmd.removeWorktree false wt s).1
        = Err (Errorf "failed to remove worktree: " e " (use --force to force removal)")
        /\ st_db (cmd.removeWorktree false wt s).2 = st_db s
        /\ st_world (cmd.removeWorktree false wt s).2 = plain.1
        /\ st_world (cmd.deleteWorktree wt s).2 = forced.1
        /\ match forced.2 with
           | Ok _ =>
               (cmd.deleteWorktree wt s).1 = Ok tt
               /\ db.SoftDeleteWorktree (current_timestamp forced.1) (st_db s) (db.wt_ID wt)
                  = Ok (st_db (cmd.deleteWorktree wt s).2)
           | Err e2 =>
               (cmd.deleteWorktree wt s).1 = Err (Errorf "failed to remove worktree: " e2 "")
               /\ st_db (cmd.deleteWorktree wt s).2 = st_db s
           end).
Proof.
  cbn zeta. unfold cmd.deleteWorktree, cmd.removeWorktree, confirms.
  destruct (db.wt_IsMain wt) eqn:Hmain.
  { split; [done|]. by intros. }
  unfold bind. rewrite !Confirm_run.
  cbn. destruct (term_MakeRaw (st_world s)) as [[]|e0]; cbn.
  2:{ split; [done|]. by intros. }
  destruct (st_stdin s) as [|b rest]; cbn.
  { split; [done|]. by intros. }
  destruct (bool_decide (b = "013"%char) || bool_decide (b = "010"%char)); cbn.
  2:{ split; [done|]. by intros. }
  unfold call_world, wrap, bind, get_world, put_world, ret, print. cbn.
  destruct (git_RemoveWorktree (st_world s) (db.wt_RepoPath wt) (db.wt_Path wt))
    as [w1 [[]|e1]]; cbn.
  - split; [done|]. intros _ _ e ?. done.
  - split; [intros [?|[?|?]]; done|].
    intros _ _ e ?. simplify_eq.
    destruct (git_RemoveWorktreeForce w1 (db.wt_RepoPath wt) (db.wt_Path wt))
      as [w2 [[]|e2]]; cbn; done.
Qed.

(** After an upsert the repository is found by its path, with the upserted
    worktrees directory. *)
Lemma UpsertRepo_lookup t d repo d' r' :
  db.UpsertRepo t d repo = Ok (d', r') ->
  exists row, db.GetRepoByPath d' (db.repo_Path repo) = Ok (Some row)
              /\ db.repo_WorktreesDir row = db.repo_WorktreesDir repo.
Proof.
  unfold db.UpsertRepo, db.GetRepoByPath.
  destruct (find _ (db.repos d)) as [old|] eqn:Hf; intros ?; simplify_eq; cbn.
  - induction (db.repos d) as [|x l IH]; cbn in *; [done|].
    case_decide as Hp.
    + cbn. rewrite Hp. rewrite !bool_decide_eq_true_2 by done. cbn. by eexists.
    + rewrite bool_decide_eq_false_2 in Hf by done. cbn.
      rewrite bool_decide_eq_false_2 by done. cbn. by apply IH.
  - set (new := db.mkRepo _ _ _ _ _ _ _).
    assert (Hnew : db.repo_Path new = db.repo_Path repo /\ db.repo_DeletedAt new = None
                   /\ db.repo_WorktreesDir new = db.repo_WorktreesDir repo) by done.
    clearbody new. destruct Hnew as (E1 & E2 & E3).
    induction (db.repos d) as [|x l IH]; cbn in *.
    + rewrite E1, E2. rewrite !bool_decide_eq_true_2 by done. cbn. by eexists.
    + destruct (bool_decide (db.repo_Path x = db.repo_Path repo)) eqn:Hp; [done|].
      cbn. by apply IH.
Qed.

Lemma ensure_run cwd (s : State) :
  cmd.ensureCurrentRepoInDB cwd s =
  match git_GetMainRepoPath (st_world s) cwd with
  | Err e => (Err (Errorf "failed to get main repo path: " e ""), s)
  | Ok mainRepoPath =>
      match db.GetRepoByPath (st_db s) mainRepoPath with
      | Ok (Some _) => (Ok tt, s)
      | Ok None =>
          match db.UpsertRepo (current_timestamp (st_world s)) (st_db s)
                  {| db.repo_ID := 0;
                     db.repo_Path := mainRepoPath;
                     db.repo_Name := git.GetRepoName mainRepoPath;
                     db.repo_WorktreesDir := git.GetDefaultWorktreesDir mainRepoPath;
                     db.repo_LastSyncedAt := None;
                     db.repo_CreatedAt := 0;
                     db.repo_DeletedAt := None |} with
          | Ok (d', _) => (Ok tt, with_db d' s)
          | Err e => (Err (Errorf "failed to save repo: " e ""), s)
          end
      | Err e => (Err (Errorf "failed to check repo: " e ""), s)
      end
  end.
Proof.
  unfold cmd.ensureCurrentRepoInDB, bind, get_world, get_db, wrap. cbn.
  destruct (git_GetMainRepoPath _ _) as [main|e]; [|done].
  destruct (find _ _) as [r|]; [done|].
  unfold bind. rewrite exec_db_run.
  by destruct (db.UpsertRepo _ _ _) as [[d' r']|e].
Qed.

Lemma ensure_world cwd (s : State) :
  st_world (cmd.ensureCurrentRepoInDB cwd s).2 = st_world s.
Proof.
  rewrite ensure_run.
  destruct (git_GetMainRepoPath _ _) as [main|e]; [|done].
  destruct (db.GetRepoByPath _ _) as [[r|]|e]; try done.
  by destruct (db.UpsertRepo _ _ _) as [[d' r']|e].
Qed.

(** Registration keeps every stored worktrees directory the default one. *)
Lemma ensure_default_dirs cwd (s : State) :
  default_dirs (st_db s) -> default_dirs (st_db (cmd.ensureCurrentRepoInDB cwd s).2).
Proof.
  intros Hd. rewrite ensure_run.
  destruct (git_GetMainRepoPath _ _) as [main|e]; [|done].
  destruct (db.GetRepoByPath _ _) as [[r|]|e]; try done.
  unfold db.UpsertRepo.
  destruct (find _ _) as [old|]; cbn; intros r Hr.
  - change (map ?f ?l) with (f <$> l) in Hr.
    apply list_elem_of_fmap in Hr as (r0 & -> & Hr0).
    case_decide as Hp; [|by apply Hd]. cbn in *. by rewrite Hp.
  - apply elem_of_app in Hr as [Hr| ->%list_elem_of_singleton]; [by apply Hd|done].
Qed.

(** C6.  The Add workflow names the directory after the branch with every
    "/" replaced by "-", and targets that name inside the repository's
    worktrees directory (the default one for its path, which is also what
    the registration step stores in the catalog): the target is the
    [filepath.Join] of the two, which is literally
    "{worktreesDir}/{safeName}" unless the branch is empty, "." or "..".
    Once the repository is registered, an existing target path makes the
    workflow fail with "worktree directory already exists" in the very state
    the registration left; and whenever the target exists the world is left
    as it was: no directory is created and git is not asked to add a
    worktree. *)
Theorem add_target_path (repoPath branch : string) (s : State) :
  let dirName := strings.ReplaceAll branch "/" "-" in
  let worktreesDir := git.GetDefaultWorktreesDir repoPath in
  let targetPath := filepath.Join [worktreesDir; dirName] in
  chars dirName = map (fun c => if decide (c = "/"%char) then "-"%char else c) (chars branch)
  /\ (branch <> "" -> branch <> "." -> branch <> ".." ->
      targetPath = worktreesDir +:+ "/" +:+ dirName)
  /\ (forall s1, cmd.ensureCurrentRepoInDB repoPath s = (Ok tt, s1) ->
        (git_GetMainRepoPath (st_world s) repoPath = Ok repoPath ->
         default_dirs (st_db s) ->
         exists repo, db.GetRepoByPath (st_db s1) repoPath = Ok (Some repo)
                      /\ targetPath = filepath.Join [db.repo_WorktreesDir repo; dirName])
        /\ (is_ok (os_Stat (st_world s) targetPath) = true ->
            cmd.runAddWithBranchFromRepo repoPath branch s
            = (Err ("worktree directory already exists: " +:+ targetPath), s1)
            /\ st_world s1 = st_world s))
  /\ (is_ok (os_Stat (st_world s) targetPath) = true ->
      st_world (cmd.runAddWithBranchFromRepo repoPath branch s).2 = st_world s).
Proof.
  cbn zeta. split; [apply ReplaceAll_slash|]. split; [|split].
  - intros H1 H2 H3. by apply Join_default_dir, dirName_plain.
  - intros s1 Hens. split.
    + intros Hmain Hdirs. rewrite ensure_run, Hmain in Hens.
      destruct (db.GetRepoByPath (st_db s) repoPath) as [[r|]|e] eqn:Hget; [| |done].
      * simplify_eq. exists r. split; [done|].
        unfold db.GetRepoByPath in Hget. simplify_eq.
        apply find_some in Hget as [Hin Hp].
        apply andb_true_iff in Hp as [Hp _]. apply bool_decide_eq_true in Hp.
        rewrite (Hdirs r) by (by apply list_elem_of_In). by rewrite Hp.
      * destruct (db.UpsertRepo _ _ _) as [[d' r']|e] eqn:HU; [|done]. simplify_eq.
        apply UpsertRepo_lookup in HU as (row & Hrow & Hdir). cbn in *.
        exists row. split; [done|]. by rewrite Hdir.
    + intros Hstat. pose proof (ensure_world repoPath s) as Hw.
      rewrite Hens in Hw. cbn in Hw.
      unfold cmd.runAddWithBranchFromRepo, bind. rewrite Hens.
      unfold get_world. cbn -[filepath.Join git.GetDefaultWorktreesDir strings.ReplaceAll].
      by rewrite Hw, Hstat.
  - intros Hstat. pose proof (ensure_world repoPath s) as Hw.
    unfold cmd.runAddWithBranchFromRepo, bind.
    destruct (cmd.ensureCurrentRepoInDB repoPath s) as [[[]|e] s1];
      cbn -[filepath.Join git.GetDefaultWorktreesDir strings.ReplaceAll] in *; [|done].
    unfold get_world. cbn -[filepath.Join git.GetDefaultWorktreesDir strings.ReplaceAll].
    by rewrite Hw, Hstat.
Qed.

End Workflows.

(** ** The properties at work on the example *)

Section Runs.
Import Example.

Lemma is_subsequence_sound q s : is_subsequence q s = true -> sublist q s.
Proof.
  revert q. induction s as [|c s IH]; intros [|a q]; cbn; try done.
  - intros _. apply sublist_nil_l.
  - case_decide as E.
    + subst. intros Hq. apply sublist_skip. by apply IH.
    + intros Hq. apply sublist_cons. by apply IH.
Qed.

Lemma subsequence_matches_ge pattern data j m :
  m ∈ subsequence_matches pattern data j -> j <= fuzzy.Index m.
Proof.
  revert j. induction data as [|x r IH]; intros j Hin; cbn in Hin.
  - by apply elem_of_nil in Hin.
  - destruct (is_subsequence _ _).
    + apply elem_of_cons in Hin as [->|Hin]; cbn; [lia|].
      specialize (IH _ Hin). lia.
    + specialize (IH _ Hin). lia.
Qed.

Lemma subsequence_matches_sound pattern data i m :
  m ∈ subsequence_matches pattern data i ->
  exists s, data !! Z.to_nat (fuzzy.Index m - i) = Some s
            /\ sublist (chars pattern) (chars s).
Proof.
  revert i. induction data as [|s0 rest IH]; intros i; cbn.
  - intros Hin. by apply elem_of_nil in Hin.
  - assert (Hrest : m ∈ subsequence_matches pattern rest (i + 1) ->
                    exists s, (s0 :: rest) !! Z.to_nat (fuzzy.Index m - i) = Some s
                              /\ sublist (chars pattern) (chars s)).
    { intros Hin. destruct (IH (i + 1) Hin) as (s & Hs & Hq).
      exists s. split; [|done].
      pose proof (subsequence_matches_ge _ _ _ _ Hin).
      replace (Z.to_nat (fuzzy.Index m - i))
        with (S (Z.to_nat (fuzzy.Index m - (i + 1)))) by lia.
      done. }
    destruct (is_subsequence _ _) eqn:Hsub; [|done].
    intros [->|Hin]%elem_of_cons; [|by apply Hrest].
    cbn. rewrite Z.sub_diag. cbn. exists s0. split; [done|].
    by apply is_subsequence_sound.
Qed.

(** The plain subsequence matcher is sound for exact subsequences. *)
Lemma line_widgets_sound :
  @Find_sound line_widgets (fun pattern s => sublist (chars pattern) (chars s)).
Proof.
  intros pattern data m Hm. cbn in Hm.
  pose proof (subsequence_matches_ge _ _ _ _ Hm).
  destruct (subsequence_matches_sound pattern data 0 m Hm) as (s & Hs & Hq).
  exists s. split; [|done]. rewrite index_Some. split; [done|].
  by rewrite Z.sub_0_r in Hs.
Qed.





Ltac by_computation := apply (bool_decide_unpack _); vm_compute; exact I.

Lemma cursor_in_range_witness :
  reachable [wtMain; wtX] (ui.set_cursor 1 picker)
  /\ 0 <= ui.cursor (ui.set_cursor 1 picker) < len (ui.filtered (ui.set_cursor 1 picker)).
Proof.
  assert (Hr : reachable [wtMain; wtX] (ui.set_cursor 1 picker)).
  { apply (reachable_step _ picker (tea.KeyMsg tea.KeyDown) _ tea.CmdNil).
    - apply reachable_init.
    - reflexivity. }
  split; [exact Hr|].
  apply (proj1 (cursor_in_range [wtMain; wtX] (ui.set_cursor 1 picker) Hr)).
  discriminate.
Defined.



Lemma sync_converges_witness :
  git_ListWorktrees (st_world start) (db.repo_Path repoA) = Ok listingA
  /\ Catalog.live_paths (st_db (cmd.syncWorktrees repoA start).2) 1
     = Catalog.listed_paths listingA
  /\ db.tombstone 200 rowGone ∈ db.worktrees (st_db (cmd.syncWorktrees repoA start).2).
Proof.
  split; [reflexivity|].
  destruct (sync_converges repoA listingA start (cmd.syncWorktrees repoA start).2
              eq_refl eq_refl) as (Hset & _ & _ & Htomb).
  split; [exact Hset|].
  apply (Htomb rowGone).
  - do 3 apply list_elem_of_further. apply list_elem_of_here.
  - reflexivity.
  - reflexivity.
  - by_computation.
Defined.

Lemma sync_idempotent_witness :
  let s1 := (cmd.syncWorktrees repoA start).2 in
  let s2 := {| st_db := st_db s1; st_world := later; st_keys := []; st_stdin := [];
               st_out := [Stderr "later"] |} in
  cmd.syncWorktrees repoA s2 = (Ok tt, s2).
Proof.
  intros s1 s2.
  apply (sync_idempotent repoA listingA start s1 s2 eq_refl eq_refl eq_refl eq_refl).
Defined.

Lemma syncAll_best_effort_witness :
  db.ListRepos (st_db start2) = Ok [repoGone; repoA]
  /\ (cmd.syncWorktrees repoGone start2).1 = Err "exit status 128"
  /\ (cmd.syncAllRepos start2).1 = Ok tt
  /\ forall row, row ∈ db.repos (st_db (cmd.syncAllRepos start2).2) ->
       db.repo_ID row = 1 -> db.repo_LastSyncedAt row = Some 200.
Proof.
  split; [reflexivity|]. split; [reflexivity|].
  destruct (syncAll_best_effort start2 [repoGone; repoA] eq_refl) as (_ & Hrun & Hturn).
  split; [by rewrite Hrun|].
  destruct (Hturn [repoGone] repoA [] eq_refl) as (_ & _ & Hsynced).
  apply (Hsynced _ eq_refl).
Defined.

Lemma main_protected_witness :
  db.wt_IsMain wtMain = true
  /\ cmd.deleteWorktree wtMain start = (Err "cannot delete the main worktree", start)
  /\ cmd.runRemove false ["/A"] start
     = (Err "cannot remove the main worktree", (cmd.syncPhase start).2).
Proof.
  split; [reflexivity|].
  destruct (main_protected wtMain eq_refl) as (_ & Hdel & _ & Hrm).
  split; [apply Hdel|].
  apply (Hrm false ["/A"] start (cmd.syncPhase start).2 (cmd.syncPhase start).2);
    reflexivity.
Defined.

(** C3, refuted as stated: /A.worktrees/x is not a main worktree and has
    uncommitted changes, so plain [git worktree remove] fails.  The Remove
    workflow surfaces that failure; the inline delete does not: it forces
    the removal, tombstones the row and reports success. *)
Lemma inline_delete_forces :
  db.wt_IsMain wtX = false
  /\ (git_RemoveWorktree (st_world start) (db.wt_RepoPath wtX) (db.wt_Path wtX)).2
     = Err "exit status 128"
  /\ (cmd.removeWorktree false wtX start).1
     = Err "failed to remove worktree: exit status 128 (use --force to force removal)"
  /\ (cmd.deleteWorktree wtX start).1 = Ok tt
  /\ st_world (cmd.deleteWorktree wtX start).2 = without "/A.worktrees/x" disk
  /\ db.tombstone 200 rowX ∈ db.worktrees (st_db (cmd.deleteWorktree wtX start).2)
  /\ ~ same_sequence wtX start.
Proof.
  repeat (split; [reflexivity|]). split.
  - apply list_elem_of_further. apply list_elem_of_here.
  - intros [Hok _]. vm_compute in Hok. discriminate Hok.
Defined.

Lemma inline_delete_vs_remove_witness :
  same_sequence wtMain start
  /\ (cmd.deleteWorktree wtX start).1 = Ok tt
  /\ (cmd.removeWorktree false wtX start).1
     = Err (Errorf "failed to remove worktree: " "exit status 128"
                   " (use --force to force removal)").
Proof.
  destruct (inline_delete_vs_remove wtMain start) as [Hsame _].
  split; [apply Hsame; left; reflexivity|].
  destruct (inline_delete_vs_remove wtX start) as [_ Hforce].
  destruct (Hforce eq_refl eq_refl "exit status 128"%string eq_refl)
    as (Hrm & _ & _ & _ & Hdel & _).
  split; [exact Hdel|exact Hrm].
Defined.

Lemma add_target_path_witness :
  filepath.Join [git.GetDefaultWorktreesDir "/r"; strings.ReplaceAll "feature/foo" "/" "-"]
  = "/r.worktrees/feature-foo"
  /\ is_ok (os_Stat (st_world startR) "/r.worktrees/feature-foo") = true
  /\ cmd.runAddWithBranchFromRepo "/r" "feature/foo" startR
     = (Err "worktree directory already exists: /r.worktrees/feature-foo",
        (cmd.ensureCurrentRepoInDB "/r" startR).2)
  /\ st_world (cmd.runAddWithBranchFromRepo "/r" "feature/foo" startR).2 = diskR.
Proof.
  split; [reflexivity|]. split; [reflexivity|].
  destruct (add_target_path "/r" "feature/foo" startR) as (_ & _ & Hreg & Hworld).
  destruct (Hreg (cmd.ensureCurrentRepoInDB "/r" startR).2 eq_refl) as (_ & Hexists).
  split; [apply (Hexists eq_refl)|apply (Hworld eq_refl)].
Defined.

Lemma tombstone_exclusive_witness :
  Catalog.keys_unique catalog
  /\ db.row_deleted_at rowOld = Some 150
  /\ exists wt, Catalog.UpsertWorktree wtOld = Catalog.UpsertWorktree wt
                /\ db.wt_Path wt = db.row_path rowOld.
Proof.
  assert (Hk : Catalog.keys_unique catalog) by (split; by_computation).
  split; [exact Hk|]. split; [reflexivity|].
  apply (tombstone_exclusive 200 (Catalog.UpsertWorktree wtOld) catalog
           {| db.repos := db.repos catalog;
              db.worktrees := map (db.on_conflict wtOld) (db.worktrees catalog) |}
           rowOld (db.conflict_update wtOld rowOld) Hk).
  - do 2 apply list_elem_of_further. apply list_elem_of_here.
  - discriminate.
  - reflexivity.
  - do 2 apply list_elem_of_further. apply list_elem_of_here.
  - reflexivity.
  - reflexivity.
Defined.

End Runs.
